(** * EchoCode: structural code navigation

  A shallow embedding of the two navigation modules of the extension,

    - [Core/Summarizer/codeParser.js]          (module [CodeParser])
    - [navigation_features/navigationHandler.js] (module [NavigationHandler])

  together with the small part of the editor API and of the JavaScript
  run-time they call (modules [Vscode] and [JS]), followed by the
  properties of the navigation engine. *)

From Stdlib Require Import List ZArith NArith Lia Bool Ascii String Sorted Permutation.
Import ListNotations.

Set Implicit Arguments.

(* ===================================================================== *)
(** * The editor API, as far as the two modules use it *)
(* ===================================================================== *)

Module Vscode.

(** [vscode.SymbolKind], in the order of the enumeration (File = 0, ...,
    TypeParameter = 25). *)
Inductive SymbolKind : Set :=
| File | Module_ | Namespace | Package | Class | Method | Property | Field
| Constructor | Enum | Interface | Function | Variable_ | Constant
| String_ | Number | Boolean | Array | Object | Key | Null | EnumMember
| Struct | Event | Operator | TypeParameter.

Definition kindCode (k : SymbolKind) : N :=
  match k with
  | File => 0 | Module_ => 1 | Namespace => 2 | Package => 3 | Class => 4
  | Method => 5 | Property => 6 | Field => 7 | Constructor => 8
  | Enum => 9 | Interface => 10 | Function => 11 | Variable_ => 12
  | Constant => 13 | String_ => 14 | Number => 15 | Boolean => 16
  | Array => 17 | Object => 18 | Key => 19 | Null => 20
  | EnumMember => 21 | Struct => 22 | Event => 23 | Operator => 24
  | TypeParameter => 25
  end%N.

(** [k1 === k2] on enumeration members. *)
Definition kindEq (k1 k2 : SymbolKind) : bool :=
  N.eqb (kindCode k1) (kindCode k2).

(** [vscode.Position]: zero-based line and character, both non-negative
    (the constructor rejects anything else). *)
Record Position : Set := mkPosition { line : N; character : N }.

(** [p.isBefore(q)] and [p.isAfter(q)]: the strict order on
    (line, character). *)
Definition isBefore (p q : Position) : bool :=
  (line p <? line q)%N || ((line p =? line q)%N && (character p <? character q)%N).

Definition isAfter (p q : Position) : bool :=
  (line q <? line p)%N || ((line p =? line q)%N && (character q <? character p)%N).

Record Range : Set := mkRange { start : Position; end_ : Position }.

(** [range.contains(position)]: the position is not before the start and
    the end is not before the position. *)
Definition contains (r : Range) (p : Position) : bool :=
  negb (isBefore p (start r)) && negb (isBefore (end_ r) p).

(** [vscode.DocumentSymbol]: the fields the extension reads. *)
#[warnings="-register-all"] Inductive DocumentSymbol : Set :=
  mkSymbol { name : string;
             kind : SymbolKind;
             range : Range;
             children : list DocumentSymbol }.

Record TextLine : Set := mkTextLine { lineNumber : N; text : string }.

(** A [vscode.TextDocument], seen through the calls made on it.
    [getText None] is [doc.getText()], [getText (Some r)] is
    [doc.getText(r)]; [lineAt] is [None] where the editor throws (line
    out of the document); [executeDocumentSymbolProvider] is the value the
    command of that name resolves to for the document's uri ([None] for
    [undefined]). *)
Record TextDocument : Type :=
  mkTextDocument { getText : option Range -> string;
                   lineAt : N -> option TextLine;
                   positionAt : N -> Position;
                   executeDocumentSymbolProvider : option (list DocumentSymbol) }.

(** A [vscode.TextEditor]: its document and [selection.active]. *)
Record TextEditor : Type :=
  mkTextEditor { document : TextDocument; active : Position }.

End Vscode.

(* ===================================================================== *)
(** * The JavaScript built-ins the two modules call *)
(* ===================================================================== *)

Module JS.

Section ArraySort.
Variable A : Type.
Variable compareFn : A -> A -> Z.

(** [Array.prototype.sort(compareFn)] is a stable sort (ECMAScript 2019
    and later): for a consistent comparator its result is the stable
    insertion of every element, from the last to the first, before the
    first element it does not exceed. *)
Fixpoint insert (x : A) (l : list A) : list A :=
  match l with
  | [] => [x]
  | y :: l' => if (compareFn x y <=? 0)%Z then x :: l else y :: insert x l'
  end.

Definition sort (l : list A) : list A := fold_right insert [] l.
End ArraySort.

(** Code units are taken in the Latin-1 range (one [ascii] each). The
    white space and line terminators of [String.prototype.trim] in that
    range: TAB, LF, VT, FF, CR, SP and NBSP. *)
Definition isWhiteSpace (c : ascii) : bool :=
  let n := N_of_ascii c in
  ((9 <=? n) && (n <=? 13) || (n =? 32) || (n =? 160))%N.

Fixpoint trimStart (s : string) : string :=
  match s with
  | EmptyString => EmptyString
  | String c s' => if isWhiteSpace c then trimStart s' else s
  end.

(** [trimEnd] as a right fold: a white-space code unit is dropped when
    all that follows it has been dropped. *)
Fixpoint trimEnd (s : string) : string :=
  match s with
  | EmptyString => EmptyString
  | String c s' =>
      match trimEnd s' with
      | EmptyString => if isWhiteSpace c then EmptyString else String c EmptyString
      | t => String c t
      end
  end.

Definition trim (s : string) : string := trimEnd (trimStart s).

(** [Array.prototype.join(sep)] on an array of strings. *)
Fixpoint join (sep : string) (l : list string) : string :=
  match l with
  | [] => EmptyString
  | [x] => x
  | x :: l' => (x ++ sep ++ join sep l')%string
  end.

(** [String.prototype.split(sep)] for a separator of one code unit: the
    pieces between the separators, at least one. *)
Fixpoint split (sep : ascii) (s : string) : list string :=
  match s with
  | EmptyString => [EmptyString]
  | String c s' =>
      if Ascii.eqb c sep then EmptyString :: split sep s'
      else match split sep s' with
           | [] => [String c EmptyString]
           | piece :: pieces => String c piece :: pieces
           end
  end.

(** How an awaited promise settles. *)
Inductive Settled : Set := Fulfilled | Rejected.

(** Truthiness of a string: [Boolean(s)], [if (s)], [s || d]. *)
Definition truthy (s : string) : bool :=
  match s with EmptyString => false | _ => true end.

End JS.

(* ===================================================================== *)
(** * Core/Summarizer/codeParser.js *)
(* ===================================================================== *)

Module CodeParser.
Import Vscode.

(** The fields of [class Selection]. *)
Record Selection : Type :=
  mkSelection { firstLine : option TextLine;
                lastLine : option TextLine;
                cursorInSelection : bool;
                blockType : string;
                name : string;
                text : string;
                selectionInClass : bool }.

(** [new Selection(blockType)]. *)
Definition newSelection (blockType : string) : Selection :=
  {| firstLine := None; lastLine := None; cursorInSelection := true;
     blockType := blockType; name := EmptyString;
     text := EmptyString;
     selectionInClass := false |}.

(** The entries pushed on [flat]: [{ sym: s, parents }]. *)
Record FlatEntry : Set :=
  mkFlatEntry { sym : DocumentSymbol; parents : list DocumentSymbol }.

(** [function inRange(pos, range)]. *)
Definition inRange (pos : Position) (range : Range) : bool :=
  let s := start range in
  let e := end_ range in
  if ((line pos <? line s) || (line e <? line pos))%N then false
  else if ((line pos =? line s) && (character pos <? character s))%N then false
  else if ((line pos =? line e) && (character e <? character pos))%N then false
  else true.

(** [function rangeSize(range)]. *)
Definition rangeSize (range : Range) : Z :=
  ((Z.of_N (line (end_ range)) - Z.of_N (line (start range))) * 10000
   + (Z.of_N (character (end_ range)) - Z.of_N (character (start range))))%Z.

(** One iteration of the loop of [walk]: push the entry on [flat], then
    walk the children (when there are any) with [parents.concat(s)]. *)
Fixpoint walkSymbol (parents : list DocumentSymbol) (s : DocumentSymbol)
         (flat : list FlatEntry) {struct s} : list FlatEntry :=
  let flat1 := flat ++ [mkFlatEntry s parents] in
  match children s with
  | [] => flat1
  | c :: cs =>
      (fix loop (rest : list DocumentSymbol) (flat : list FlatEntry)
         {struct rest} : list FlatEntry :=
         match rest with
         | [] => flat
         | s' :: rest' => loop rest' (walkSymbol (parents ++ [s]) s' flat)
         end) (c :: cs) flat1
  end.

(** [walk(list, parents)], threading the array [flat] it pushes on. *)
Definition walk (symbols : list DocumentSymbol) (parents : list DocumentSymbol)
           (flat : list FlatEntry) : list FlatEntry :=
  fold_left (fun flat s => walkSymbol parents s flat) symbols flat.

(** [wantKind] is one kind or an array of kinds. *)
Definition WantKind : Set := (SymbolKind + list SymbolKind)%type.

Definition wantKindOf (blockType : string) : WantKind :=
  if String.eqb blockType "class" then inl Class else inr [Function; Method].

(** [Array.isArray(wantKind) ? wantKind.includes(sym.kind)
                             : sym.kind === wantKind]. *)
Definition kindWanted (wantKind : WantKind) (k : SymbolKind) : bool :=
  match wantKind with
  | inr kinds => existsb (kindEq k) kinds
  | inl k' => kindEq k k'
  end.

(** The entry bound to [containing]: filter by range, filter by kind,
    sort by range size, take index 0 ([None] for [undefined]). *)
Definition containing (flat : list FlatEntry) (cursor : Position)
           (wantKind : WantKind) : option FlatEntry :=
  hd_error
    (JS.sort (fun a b => (rangeSize (range (sym a)) - rangeSize (range (sym b)))%Z)
       (filter (fun e => kindWanted wantKind (kind (sym e)))
          (filter (fun e => inRange cursor (range (sym e))) flat))).

(** How a call ends, with the object as the call left it. *)
Inductive Completion (A : Type) : Type :=
| Returned (this : A)
| Thrown (this : A).

Definition finalState A (c : Completion A) : A :=
  match c with Returned a => a | Thrown a => a end.

(** [Selection.prototype.detectCurrentBlock(editor)]. *)
Definition detectCurrentBlock (this : Selection) (editor : TextEditor)
  : Completion Selection :=
  let doc := document editor in
  let cursor := active editor in
  let symbols :=
    match executeDocumentSymbolProvider doc with Some l => l | None => [] end in
  let flat := walk symbols [] [] in
  let wantKind := wantKindOf (blockType this) in
  match containing flat cursor wantKind with
  | None =>
      Returned {| firstLine := firstLine this; lastLine := lastLine this;
                  cursorInSelection := false; blockType := blockType this;
                  name := name this; text := text this;
                  selectionInClass := selectionInClass this |}
  | Some (mkFlatEntry sym parents) =>
      let this1 :=
        {| firstLine := firstLine this; lastLine := lastLine this;
           cursorInSelection := cursorInSelection this;
           blockType := blockType this;
           name := Vscode.name sym; text := text this;
           selectionInClass := selectionInClass this |} in
      match lineAt doc (line (start (range sym))) with
      | None => Thrown this1
      | Some first =>
          match lineAt doc (line (end_ (range sym))) with
          | None =>
              Thrown {| firstLine := Some first; lastLine := lastLine this1;
                        cursorInSelection := cursorInSelection this1;
                        blockType := blockType this1;
                        name := name this1; text := text this1;
                        selectionInClass := selectionInClass this1 |}
          | Some last =>
              Returned
                {| firstLine := Some first; lastLine := Some last;
                   cursorInSelection := cursorInSelection this1;
                   blockType := blockType this1;
                   name := name this1;
                   text := getText doc (Some (range sym));
                   selectionInClass :=
                     existsb (fun p => kindEq (kind p) Class) parents |}
          end
      end
  end.

(** [detectCurrentBlock] with the [await] of the provider call in it. The
    call above takes from the document the value the promise resolves to;
    the promise can also reject, nothing catches that, and the method then
    rejects before it has assigned anything. *)
Definition detectCurrentBlockAwaiting (provider : JS.Settled) (this : Selection)
           (editor : TextEditor) : Completion Selection :=
  match provider with
  | JS.Rejected => Thrown this
  | JS.Fulfilled => detectCurrentBlock this editor
  end.

End CodeParser.

(* ===================================================================== *)
(** * navigation_features/navigationHandler.js *)
(* ===================================================================== *)

Module NavigationHandler.
Import Vscode.

(** The objects [{ ...s, parent }] of [flattenSymbols]: the fields of the
    symbol, copied, and the array of its ancestors. *)
Record FlatSymbol : Set :=
  mkFlatSymbol { name : string;
                 kind : SymbolKind;
                 range : Range;
                 children : list DocumentSymbol;
                 parent : list DocumentSymbol }.

Definition spread (s : DocumentSymbol) (parent : list DocumentSymbol) : FlatSymbol :=
  {| name := Vscode.name s; kind := Vscode.kind s; range := Vscode.range s;
     children := Vscode.children s; parent := parent |}.

(** One iteration of the loop of [flattenSymbols]: the entry of [s], then
    (when [s] has children) the entries of
    [flattenSymbols(s.children, parent.concat(s))]. *)
Fixpoint flattenSymbol (parent : list DocumentSymbol) (s : DocumentSymbol)
         {struct s} : list FlatSymbol :=
  spread s parent ::
    match Vscode.children s with
    | [] => []
    | c :: cs =>
        (fix loop (rest : list DocumentSymbol) : list FlatSymbol :=
           match rest with
           | [] => []
           | s' :: rest' => flattenSymbol (parent ++ [s]) s' ++ loop rest'
           end) (c :: cs)
    end.

(** [function flattenSymbols(symbols, parent = [])]. *)
Definition flattenSymbols (symbols : list DocumentSymbol)
           (parent : list DocumentSymbol) : list FlatSymbol :=
  flat_map (flattenSymbol parent) symbols.

(** [function isJumpableKind(kind)]. *)
Definition isJumpableKind (kind : SymbolKind) : bool :=
  kindEq kind Function
  || kindEq kind Method
  || kindEq kind Constructor
  || kindEq kind Class
  || kindEq kind Struct.

(** [function prettyName(sym)]. *)
Definition prettyName (sym : FlatSymbol) : string :=
  let chain :=
    filter JS.truthy (map (fun p => JS.trim (Vscode.name p)) (parent sym)) in
  let chain :=
    if JS.truthy (name sym) then chain ++ [JS.trim (name sym)] else chain in
  let joined := JS.join "::" chain in
  if JS.truthy joined then joined else "(unnamed)"%string.

(** [function getPositionFromRange(document, range)]; [None] is an
    undefined range. *)
Definition getPositionFromRange (document : TextDocument)
           (range : option Range) : Position :=
  match range with
  | Some r => start r
  | None => mkPosition 0 0
  end.

(** The objects [{ position, name }] a cursor can jump to. *)
Record JumpTarget : Set :=
  mkJumpTarget { position : Position; targetName : string }.

(** The comparator of the sort "by position in file". *)
Definition byPosition (a b : JumpTarget) : Z :=
  if (line (position a) =? line (position b))%N
  then (Z.of_N (character (position a)) - Z.of_N (character (position b)))%Z
  else (Z.of_N (line (position a)) - Z.of_N (line (position b)))%Z.

(** ** The fallback scan with [/^(def |class )(\w+)/gm] *)

(** [\w]. *)
Definition isWordChar (c : ascii) : bool :=
  let n := N_of_ascii c in
  ((48 <=? n) && (n <=? 57) || (65 <=? n) && (n <=? 90)
   || (97 <=? n) && (n <=? 122) || (n =? 95))%N.

(** The line terminators after which [^] matches under the [m] flag
    (LF and CR in the Latin-1 range). *)
Definition isLineTerminator (c : ascii) : bool :=
  let n := N_of_ascii c in ((n =? 10) || (n =? 13))%N.

(** The longest run of word characters at the head: greedy [\w+]. *)
Fixpoint takeWord (s : string) : string :=
  match s with
  | String c s' => if isWordChar c then String c (takeWord s') else EmptyString
  | EmptyString => EmptyString
  end.

Fixpoint dropChars (n : nat) (s : string) : string :=
  match n, s with
  | S n', String _ s' => dropChars n' s'
  | _, _ => s
  end.

(** [(def |class )(\w+)] matched at the head of [s]: the two groups. *)
Definition matchHere (s : string) : option (string * string) :=
  let keyword :=
    if String.prefix "def " s then Some "def "%string
    else if String.prefix "class " s then Some "class "%string
    else None in
  match keyword with
  | None => None
  | Some kw =>
      match takeWord (dropChars (String.length kw) s) with
      | EmptyString => None
      | w => Some (kw, w)
      end
  end.

(** The loop [while ((match = re.exec(text)) !== null)]: every match as
    [(match.index, match[2])], left to right. [s] is the text from offset
    [index] on, [previous] the code unit before it, and [skip] the number
    of code units left before [re.lastIndex], inside which no match is
    looked for. *)
Fixpoint execAll (s : string) (index : N) (previous : option ascii)
         (skip : nat) : list (N * string) :=
  match s with
  | EmptyString => []
  | String c s' =>
      match skip with
      | S skip' => execAll s' (index + 1)%N (Some c) skip'
      | O =>
          let atLineStart :=
            match previous with None => true | Some p => isLineTerminator p end in
          match (if atLineStart then matchHere s else None) with
          | Some (kw, w) =>
              (index, w)
                :: execAll s' (index + 1)%N (Some c)
                     (String.length kw + String.length w - 1)
          | None => execAll s' (index + 1)%N (Some c) O
          end
      end
  end.

(** [async function getJumpTargets(document)]. *)
Definition getJumpTargets (document : TextDocument) : list JumpTarget :=
  let symbols :=
    match executeDocumentSymbolProvider document with Some l => l | None => [] end in
  let fromSymbols :=
    if (0 <? List.length symbols)%nat then
      let flat :=
        JS.sort byPosition
          (map (fun s => {| position := getPositionFromRange document (Some (range s));
                            targetName := prettyName s |})
             (filter (fun s => isJumpableKind (kind s))
                (flattenSymbols symbols []))) in
      match flat with [] => None | _ => Some flat end
    else None in
  match fromSymbols with
  | Some flat => flat
  | None =>
      let text := getText document None in
      map (fun m => {| position := positionAt document (fst m);
                       targetName := snd m |})
        (execAll text 0%N None O)
  end.

(** ** The command [moveCursorToSymbol] and the host state it acts on *)

(** A timer made by [setTimeout(() => speakMessage(message), delay)]. *)
Record Timeout : Set := mkTimeout { message : string; delay : N }.

(** The calls made on the host, in order. *)
Inductive HostCall : Set :=
| ShowInformationMessage (msg : string)
| RevealRange (r : Range)
| ClearTimeout (t : Timeout)
| SetTimeout (t : Timeout).

(** [vscode.window.activeTextEditor], the module variable [lastTimeout]
    and the calls made so far. *)
Record Host : Type :=
  mkHost { activeTextEditor : option TextEditor;
           lastTimeout : option Timeout;
           calls : list HostCall }.

(** [direction === "next" ? "next" : "previous"]. *)
Definition directionWord (direction : string) : string :=
  if String.eqb direction "next" then "next"%string else "previous"%string.

(** The target chosen by the two loops of [moveCursorToSymbol]: the first
    hit of a scan from the front, or from the back, of [targets]. *)
Definition pickTarget (direction : string) (targets : list JumpTarget)
           (current : Position) : option JumpTarget :=
  if String.eqb direction "next"
  then find (fun t => isAfter (position t) current) targets
  else find (fun t => isBefore (position t) current) (rev targets).

(** [async function moveCursorToSymbol(direction)]. *)
Definition moveCursorToSymbol (direction : string) (host : Host) : Host :=
  match activeTextEditor host with
  | None => host
  | Some editor =>
      let document := document editor in
      let targets := getJumpTargets document in
      match targets with
      | [] =>
          {| activeTextEditor := activeTextEditor host;
             lastTimeout := lastTimeout host;
             calls := calls host
                      ++ [ShowInformationMessage "No symbols found to jump to."] |}
      | _ :: _ =>
          let current := active editor in
          match pickTarget direction targets current with
          | None =>
              {| activeTextEditor := activeTextEditor host;
                 lastTimeout := lastTimeout host;
                 calls := calls host
                          ++ [ShowInformationMessage
                                ("No " ++ directionWord direction ++ " symbol.")] |}
          | Some target =>
              let timer :=
                {| message := ("Moved " ++ directionWord direction ++ " to "
                               ++ targetName target ++ ".")%string;
                   delay := 300 |} in
              {| activeTextEditor :=
                   Some {| document := document; active := position target |};
                 lastTimeout := Some timer;
                 calls := calls host
                          ++ [RevealRange (mkRange (position target) (position target))]
                          ++ match lastTimeout host with
                             | Some t => [ClearTimeout t]
                             | None => []
                             end
                          ++ [SetTimeout timer] |}
          end
      end
  end.

(** [moveCursorToSymbol] with the [await] of [getJumpTargets] in it: without
    an editor the command returns before the provider is asked; with one, a
    rejected provider call is not caught and rejects the command before any
    message, jump or timer. *)
Definition moveCursorToSymbolAwaiting (provider : JS.Settled) (direction : string)
           (host : Host) : CodeParser.Completion Host :=
  match activeTextEditor host with
  | None => CodeParser.Returned host
  | Some _ =>
      match provider with
      | JS.Rejected => CodeParser.Thrown host
      | JS.Fulfilled => CodeParser.Returned (moveCursorToSymbol direction host)
      end
  end.

End NavigationHandler.

(* ===================================================================== *)
(** * A plain-text document, for running the modules on examples *)
(* ===================================================================== *)

Module PlainText.
Import Vscode.

Definition LF : ascii := ascii_of_N 10.

(** The lines of a text, split at LF. *)
Fixpoint lines (s : string) : list string :=
  match s with
  | EmptyString => [EmptyString]
  | String c s' =>
      if Ascii.eqb c LF then EmptyString :: lines s'
      else match lines s' with
           | [] => [String c EmptyString]
           | l :: ls => String c l :: ls
           end
  end.

Fixpoint positionFrom (s : string) (offset : nat) (ln col : N) : Position :=
  match offset, s with
  | S k, String c s' =>
      if Ascii.eqb c LF then positionFrom s' k (ln + 1)%N 0%N
      else positionFrom s' k ln (col + 1)%N
  | _, _ => mkPosition ln col
  end.

Fixpoint offsetFrom (ls : list string) (ln : nat) (col : nat) : nat :=
  match ls, ln with
  | [], _ => 0
  | l :: _, O => Nat.min col (String.length l)
  | l :: ls', S ln' => String.length l + 1 + offsetFrom ls' ln' col
  end.

Definition offsetAt (s : string) (p : Position) : nat :=
  offsetFrom (lines s) (N.to_nat (line p)) (N.to_nat (character p)).

(** The document holding [text], for which the symbol provider answers
    [symbols]. *)
Definition textDocument (text : string)
           (symbols : option (list DocumentSymbol)) : TextDocument :=
  {| getText := fun r =>
       match r with
       | None => text
       | Some r =>
           let a := offsetAt text (start r) in
           let b := offsetAt text (end_ r) in
           String.substring a (b - a) text
       end;
     lineAt := fun n =>
       match nth_error (lines text) (N.to_nat n) with
       | Some l => Some (mkTextLine n l)
       | None => None
       end;
     positionAt := fun offset => positionFrom text (N.to_nat offset) 0%N 0%N;
     executeDocumentSymbolProvider := symbols |}.

End PlainText.

(* ===================================================================== *)
(** * program_features/FileConnector/File_Connector.js: the symbol search *)
(* ===================================================================== *)

Module FileConnector.
Import Vscode.

Section FirstReturn.
Variable A B : Type.
Variable body : A -> option B.

(** A [for ... of] loop whose body may return: the value of the first turn
    that returns, [None] when the loop runs to its end. *)
Fixpoint firstReturn (l : list A) : option B :=
  match l with
  | [] => None
  | a :: l' =>
      match body a with
      | Some r => Some r
      | None => firstReturn l'
      end
  end.
End FirstReturn.

(** One turn of the loop of [findFunctionAtPosition], at [symbol]: [Some r]
    when the turn returns [r], [None] when the loop goes on ([null] and a
    symbol are told apart by [||] and [if] as [None] and [Some]). *)
Fixpoint visit (position : Position) (symbol : DocumentSymbol) {struct symbol}
  : option DocumentSymbol :=
  if contains (range symbol) position then
    if kindEq (kind symbol) Function then
      Some (match firstReturn (visit position) (children symbol) with
            | Some r => r
            | None => symbol
            end)
    else firstReturn (visit position) (children symbol)
  else None.

(** [function findFunctionAtPosition(symbols, position)]; [None] is
    [null]. *)
Definition findFunctionAtPosition (symbols : list DocumentSymbol)
           (position : Position) : option DocumentSymbol :=
  firstReturn (visit position) symbols.

End FileConnector.

(* ===================================================================== *)
(** * navigation_features/Folder_File_Navigator/file_navigator.js *)
(* ===================================================================== *)

Module FileNavigator.

(** A [vscode.Uri], by its [path]. *)
Record Uri : Set := mkUri { path : string }.

(** How opening a file goes: [openTextDocument] and [showTextDocument] are
    awaited one after the other, and either can reject (a file that cannot
    be loaded as text, for one). *)
Inductive Opening : Set := Opens | OpenRejects | ShowRejects.

(** What the workspace answers: [vscode.workspace.workspaceFolders] ([None]
    for [undefined]), the files [findFiles] resolves to, how opening each
    file goes, and how the awaited [speakMessage] settles. *)
Record Workspace : Set :=
  mkWorkspace { workspaceFolders : option (list Uri);
                findFiles : list Uri;
                opening : Uri -> Opening;
                speaking : JS.Settled }.

(** The calls made on the host, in order. *)
Inductive Call : Set :=
| ShowErrorMessage (msg : string)
| ShowInformationMessage (msg : string)
| SpeakMessage (msg : string)
| OpenTextDocument (file : Uri)
| ShowTextDocument (file : Uri).

(** The module variable [currentFileIndex] and the calls made so far. *)
Record State : Set := mkState { currentFileIndex : N; calls : list Call }.

(** How a call ends: it returns, a [TypeError] is thrown (a property read
    of [undefined]), or an awaited promise rejects; nothing is caught. *)
Inductive Outcome : Set :=
| Done (st : State)
| TypeError (st : State)
| Rejected (st : State).

(** [nextFile.path.split("/").pop()]. *)
Definition fileNameOf (file : Uri) : string :=
  last (JS.split "/" (path file)) EmptyString.

(** [await speakMessage(msg)] as the last statement of a branch. *)
Definition afterSpeaking (ws : Workspace) (st : State) : Outcome :=
  match speaking ws with
  | JS.Fulfilled => Done st
  | JS.Rejected => Rejected st
  end.

(** [async function navigateToNextFile()]. *)
Definition navigateToNextFile (ws : Workspace) (st : State) : Outcome :=
  match workspaceFolders ws with
  | None =>
      afterSpeaking ws
        {| currentFileIndex := currentFileIndex st;
           calls := calls st
                    ++ [ShowErrorMessage "No workspace folder is open.";
                        SpeakMessage "No workspace folder is open."] |}
  | Some [] => TypeError st
  | Some (_ :: _) =>
      let files := findFiles ws in
      if (N.of_nat (List.length files) =? 0)%N then
        afterSpeaking ws
          {| currentFileIndex := currentFileIndex st;
             calls := calls st
                      ++ [ShowErrorMessage "No files found in the workspace.";
                          SpeakMessage "No files found in the workspace."] |}
      else
        let index := ((currentFileIndex st + 1) mod N.of_nat (List.length files))%N in
        match nth_error files (N.to_nat index) with
        | None => TypeError {| currentFileIndex := index; calls := calls st |}
        | Some nextFile =>
            match opening ws nextFile with
            | OpenRejects =>
                Rejected {| currentFileIndex := index;
                            calls := calls st ++ [OpenTextDocument nextFile] |}
            | ShowRejects =>
                Rejected {| currentFileIndex := index;
                            calls := calls st
                                     ++ [OpenTextDocument nextFile;
                                         ShowTextDocument nextFile] |}
            | Opens =>
                let fileName := fileNameOf nextFile in
                afterSpeaking ws
                  {| currentFileIndex := index;
                     calls := calls st
                              ++ [OpenTextDocument nextFile;
                                  ShowTextDocument nextFile;
                                  ShowInformationMessage
                                    ("Navigated to file: " ++ fileName);
                                  SpeakMessage
                                    ("Navigated to file: " ++ fileName)] |}
            end
        end
  end.

(** The state a call leaves behind. *)
Definition stateOf (o : Outcome) : State :=
  match o with Done st => st | TypeError st => st | Rejected st => st end.

(** The command run [k] times, each time on the state the call before it
    left. *)
Fixpoint navigateTimes (k : nat) (ws : Workspace) (st : State) : State :=
  match k with
  | O => st
  | S k' => navigateTimes k' ws (stateOf (navigateToNextFile ws st))
  end.

End FileNavigator.

(* ===================================================================== *)
(** * The scenario of the specification *)
(* ===================================================================== *)

Module Scenario.
Import Vscode.

(** Method [foo] at [2,2]-[4,2] inside class [A] at [0,0]-[10,0]. *)
Definition foo : DocumentSymbol :=
  mkSymbol "foo" Method (mkRange (mkPosition 2 2) (mkPosition 4 2)) [].

Definition A : DocumentSymbol :=
  mkSymbol "A" Class (mkRange (mkPosition 0 0) (mkPosition 10 0)) [foo].

(** The same two ranges for a function [inner] nested in a function
    [outer]. *)
Definition inner : DocumentSymbol :=
  mkSymbol "inner" Function (mkRange (mkPosition 2 2) (mkPosition 4 2)) [].

Definition outer : DocumentSymbol :=
  mkSymbol "outer" Function (mkRange (mkPosition 0 0) (mkPosition 10 0)) [inner].

(** Three blocks around line 3: a function [top] over the whole text, in it
    a function [f] at [2,2]-[4,2], and in [f] a method [g] with the very
    range of [f]. *)
Definition g : DocumentSymbol :=
  mkSymbol "g" Method (mkRange (mkPosition 2 2) (mkPosition 4 2)) [].

Definition f : DocumentSymbol :=
  mkSymbol "f" Function (mkRange (mkPosition 2 2) (mkPosition 4 2)) [g].

Definition top : DocumentSymbol :=
  mkSymbol "top" Function (mkRange (mkPosition 0 0) (mkPosition 10 0)) [f].

Definition nl : string := String PlainText.LF EmptyString.

(** Eleven lines of text (0 to 10) under those symbols. *)
Definition source : string :=
  ("class A:" ++ nl ++ nl
   ++ "  def foo(self):" ++ nl
   ++ "    return 1" ++ nl
   ++ "  # done" ++ nl
   ++ nl ++ nl ++ nl ++ nl ++ nl)%string.

Definition doc : TextDocument := PlainText.textDocument source (Some [A]).

Definition editorAt (ln col : N) : TextEditor :=
  {| document := doc; active := mkPosition ln col |}.

(** A text with three definition headers and one indented [def], for which
    the provider answers nothing. *)
Definition script : string :=
  ("def a():" ++ nl ++ "  def inner():" ++ nl ++ "class B:" ++ nl
   ++ "def c():")%string.

Definition plain : TextDocument := PlainText.textDocument script None.

(** Symbols out of document order, two of them starting at (0,0): a
    function [late] at line 5, listed first, then a class [K] at
    [0,0]-[4,0] with a method [m] at [0,0]-[0,9]. *)
Definition m : DocumentSymbol :=
  mkSymbol "m" Method (mkRange (mkPosition 0 0) (mkPosition 0 9)) [].

Definition K : DocumentSymbol :=
  mkSymbol "K" Class (mkRange (mkPosition 0 0) (mkPosition 4 0)) [m].

Definition late : DocumentSymbol :=
  mkSymbol "late" Function (mkRange (mkPosition 5 0) (mkPosition 6 0)) [].

Definition shuffled : TextDocument :=
  PlainText.textDocument source (Some [late; K]).

(** The same text under the three blocks. *)
Definition nested : TextDocument := PlainText.textDocument source (Some [top]).

Definition nestedEditorAt (ln col : N) : TextEditor :=
  {| document := nested; active := mkPosition ln col |}.

End Scenario.

(* ===================================================================== *)
(** * The vocabulary of the properties *)
(* ===================================================================== *)

Module Spec.
Import Vscode.

(** The order on positions: by line, then by character. *)
Definition posLe (p q : Position) : Prop :=
  (line p < line q)%N \/ (line p = line q /\ (character p <= character q)%N).

Definition posLt (p q : Position) : Prop :=
  (line p < line q)%N \/ (line p = line q /\ (character p < character q)%N).

(** The size the specification gives a range:
    (end.line - start.line) * 10000 + (end.column - start.column). *)
Definition spanSize (r : Range) : Z :=
  ((Z.of_N (line (end_ r)) - Z.of_N (line (start r))) * 10000
   + (Z.of_N (character (end_ r)) - Z.of_N (character (start r))))%Z.

(** The position lies in the closed interval of the range. *)
Definition holds (r : Range) (p : Position) : Prop :=
  posLe (start r) p /\ posLe p (end_ r).

(** The kind-set a block type asks for: [Class] for the block type
    [class], [Function] or [Method] for any other. *)
Definition desiredKind (blockType : string) (k : SymbolKind) : Prop :=
  if String.eqb blockType "class" then k = Class
  else k = Function \/ k = Method.

(** The invariant of a range, and nesting of ranges. *)
Definition wellFormed (r : Range) : Prop := posLe (start r) (end_ r).

Definition nestedIn (r1 r2 : Range) : Prop :=
  posLe (start r2) (start r1) /\ posLe (end_ r1) (end_ r2).

Definition columnsBelow (bound : N) (r : Range) : Prop :=
  (character (start r) < bound)%N /\ (character (end_ r) < bound)%N.

(** ** Addressing the nodes of a symbol tree

    A node of a forest is addressed by the child indices on the way to
    it: [[i]] is the root number [i], [i :: j :: ...] continues in child
    [j] of that root. *)

(** The node reached from [s] by [path] ([[]] is [s] itself). *)
Fixpoint descend (s : DocumentSymbol) (path : list nat) : option DocumentSymbol :=
  match path with
  | [] => Some s
  | i :: rest =>
      match nth_error (children s) i with
      | Some c => descend c rest
      | None => None
      end
  end.

Definition nodeAt (roots : list DocumentSymbol) (path : list nat)
  : option DocumentSymbol :=
  match path with
  | [] => None
  | i :: rest =>
      match nth_error roots i with
      | Some s => descend s rest
      | None => None
      end
  end.

(** The symbols passed on the way from [s] down [path], the node reached
    excluded. *)
Fixpoint chain (s : DocumentSymbol) (path : list nat) : list DocumentSymbol :=
  match path with
  | [] => []
  | i :: rest =>
      s :: match nth_error (children s) i with
           | Some c => chain c rest
           | None => []
           end
  end.

Definition ancestorsAt (roots : list DocumentSymbol) (path : list nat)
  : list DocumentSymbol :=
  match path with
  | [] => []
  | i :: rest =>
      match nth_error roots i with
      | Some s => chain s rest
      | None => []
      end
  end.

(** Depth-first pre-order on addresses: a node before its descendants,
    an earlier child and all below it before a later child. *)
Fixpoint pathLt (p q : list nat) : Prop :=
  match p, q with
  | [], [] => False
  | [], _ :: _ => True
  | _ :: _, [] => False
  | i :: p', j :: q' => i < j \/ (i = j /\ pathLt p' q')
  end.

(** [out], a list of (symbol, ancestors), lists the nodes of [roots] in
    pre-order, each once: it is matched, element by element, by a strictly
    increasing list of addresses that holds every address of the forest. *)
Definition PreorderListing (roots : list DocumentSymbol)
           (out : list (DocumentSymbol * list DocumentSymbol)) : Prop :=
  exists paths : list (list nat),
    StronglySorted pathLt paths
    /\ (forall p, In p paths <-> nodeAt roots p <> None)
    /\ Forall2 (fun p e => nodeAt roots p = Some (fst e)
                            /\ ancestorsAt roots p = snd e) paths out.

(** The symbol a flattened copy [{ ...s, parent }] holds the fields of. *)
Definition original (f : NavigationHandler.FlatSymbol) : DocumentSymbol :=
  mkSymbol (NavigationHandler.name f) (NavigationHandler.kind f)
    (NavigationHandler.range f) (NavigationHandler.children f).

Section Numbered.
Variable f : DocumentSymbol -> list (list nat).

(** The addresses [f c] of every [c] of [l], each behind the index of
    [c], counted from [i]. *)
Fixpoint numbered (l : list DocumentSymbol) (i : nat) : list (list nat) :=
  match l with
  | [] => []
  | c :: l' => map (cons i) (f c) ++ numbered l' (S i)
  end.
End Numbered.

(** The addresses below [s], relative to [s], and those of a forest. *)
Fixpoint pathsBelow (s : DocumentSymbol) : list (list nat) :=
  [] :: numbered pathsBelow (children s) 0.

Definition pathsOf (roots : list DocumentSymbol) : list (list nat) :=
  numbered pathsBelow roots 0.

(** ** The display name, as the specification words it

    Ancestor names and own name, each trimmed, the empty ones dropped,
    joined with [::]; the placeholder when nothing is left. *)
Definition displayName (ancestors : list string) (own : string) : string :=
  match filter JS.truthy (map JS.trim (ancestors ++ [own])) with
  | [] => "(unnamed)"%string
  | segments => JS.join "::" segments
  end.

(** The jump targets the symbols alone give: one per jumpable flattened
    symbol, at the start of its range, under its pretty name, sorted by
    position. *)
Definition targetsOfSymbols (symbols : list DocumentSymbol)
  : list NavigationHandler.JumpTarget :=
  JS.sort NavigationHandler.byPosition
    (map (fun s => NavigationHandler.mkJumpTarget
                     (start (NavigationHandler.range s))
                     (NavigationHandler.prettyName s))
       (filter (fun s => NavigationHandler.isJumpableKind (NavigationHandler.kind s))
          (NavigationHandler.flattenSymbols symbols []))).

(** The jump targets the text alone gives (the fallback scan). *)
Definition targetsOfText (document : TextDocument)
  : list NavigationHandler.JumpTarget :=
  map (fun m => NavigationHandler.mkJumpTarget (positionAt document (fst m)) (snd m))
    (NavigationHandler.execAll (getText document None) 0%N None O).

(** Some flattened symbol is of a jumpable kind. *)
Definition hasJumpable (symbols : list DocumentSymbol) : Prop :=
  exists s, In s (NavigationHandler.flattenSymbols symbols [])
            /\ NavigationHandler.isJumpableKind (NavigationHandler.kind s) = true.

(** Jump targets in ascending order of position. *)
Definition ascending (targets : list NavigationHandler.JumpTarget) : Prop :=
  StronglySorted
    (fun a b => posLe (NavigationHandler.position a) (NavigationHandler.position b))
    targets.

(** ** Outcomes of a navigation step *)

(** A position lies beyond the cursor in the direction asked for. *)
Definition beyond (direction : string) (current p : Position) : Prop :=
  if String.eqb direction "next" then posLt current p else posLt p current.

(** [p] is no farther from the cursor than [q], both beyond it. *)
Definition nearer (direction : string) (p q : Position) : Prop :=
  if String.eqb direction "next" then posLe p q else posLe q p.

(** The order in which the targets are scanned: ascending for [next],
    descending otherwise. *)
Definition scanOrder (direction : string)
           (targets : list NavigationHandler.JumpTarget)
  : list NavigationHandler.JumpTarget :=
  if String.eqb direction "next" then targets else rev targets.

(** The host after an information message and nothing else. *)
Definition told (host : NavigationHandler.Host) (msg : string)
  : NavigationHandler.Host :=
  {| NavigationHandler.activeTextEditor := NavigationHandler.activeTextEditor host;
     NavigationHandler.lastTimeout := NavigationHandler.lastTimeout host;
     NavigationHandler.calls :=
       NavigationHandler.calls host ++ [NavigationHandler.ShowInformationMessage msg] |}.

(** The announcement scheduled after a jump to [target]. *)
Definition announcement (direction : string) (target : NavigationHandler.JumpTarget)
  : NavigationHandler.Timeout :=
  {| NavigationHandler.message :=
       ("Moved " ++ direction ++ " to "
        ++ NavigationHandler.targetName target ++ ".")%string;
     NavigationHandler.delay := 300 |}.

(** The host after a jump to [target]: the cursor there, the position
    revealed, a pending announcement cancelled and the new one scheduled. *)
Definition jumped (direction : string) (host : NavigationHandler.Host)
           (editor : TextEditor) (target : NavigationHandler.JumpTarget)
  : NavigationHandler.Host :=
  {| NavigationHandler.activeTextEditor :=
       Some {| document := document editor;
               active := NavigationHandler.position target |};
     NavigationHandler.lastTimeout := Some (announcement direction target);
     NavigationHandler.calls :=
       NavigationHandler.calls host
       ++ [NavigationHandler.RevealRange
             (mkRange (NavigationHandler.position target)
                (NavigationHandler.position target))]
       ++ match NavigationHandler.lastTimeout host with
          | Some t => [NavigationHandler.ClearTimeout t]
          | None => []
          end
       ++ [NavigationHandler.SetTimeout (announcement direction target)] |}.

(** ** The fallback scan, said without [lastIndex]

    The code unit at offset [i] of [text] starts a line: it is the first
    one, or the one before it is a line terminator. *)
Definition lineStartAt (text : string) (i : nat) : Prop :=
  match i with
  | O => True
  | S j => exists c, String.get j text = Some c
                     /\ NavigationHandler.isLineTerminator c = true
  end.

Fixpoint wordChars (w : string) : bool :=
  match w with
  | EmptyString => true
  | String c w' => NavigationHandler.isWordChar c && wordChars w'
  end.

(** [rest] does not go on with a word character. *)
Definition wordEnds (rest : string) : Prop :=
  match rest with
  | EmptyString => True
  | String c _ => NavigationHandler.isWordChar c = false
  end.

(** At offset [i] a line of [text] starts with [def ] or [class ] and then
    the identifier [w], taken as far as word characters go. *)
Definition headerAt (text : string) (i : nat) (w : string) : Prop :=
  lineStartAt text i
  /\ exists kw rest,
      (kw = "def "%string \/ kw = "class "%string)
      /\ NavigationHandler.dropChars i text = (kw ++ w ++ rest)%string
      /\ w <> EmptyString /\ wordChars w = true /\ wordEnds rest.

(** Every line start where the pattern matches, one by one, without the
    bookkeeping of [lastIndex]. *)
Fixpoint definitionLines (s : string) (index : N) (previous : option ascii)
  : list (N * string) :=
  match s with
  | EmptyString => []
  | String c s' =>
      let atLineStart :=
        match previous with
        | None => true
        | Some p => NavigationHandler.isLineTerminator p
        end in
      match (if atLineStart then NavigationHandler.matchHere s else None) with
      | Some (_, w) => (index, w) :: definitionLines s' (index + 1)%N (Some c)
      | None => definitionLines s' (index + 1)%N (Some c)
      end
  end.

(** [lineStartAt] inside a text: [s] is what is left of the text and
    [previous] the code unit before it. *)
Definition lineStartAfter (previous : option ascii) (s : string) (i : nat) : Prop :=
  match i with
  | O => match previous with
         | None => True
         | Some p => NavigationHandler.isLineTerminator p = true
         end
  | S j => exists c, String.get j s = Some c
                     /\ NavigationHandler.isLineTerminator c = true
  end.

(** The first [n] code units of [s] hold no line terminator. *)
Fixpoint noTerminatorIn (n : nat) (s : string) : Prop :=
  match n, s with
  | S k, String c s' =>
      NavigationHandler.isLineTerminator c = false /\ noTerminatorIn k s'
  | _, _ => True
  end.

(** The target a jumpable flattened symbol gives. *)
Definition targetOf (s : NavigationHandler.FlatSymbol)
  : NavigationHandler.JumpTarget :=
  NavigationHandler.mkJumpTarget (start (NavigationHandler.range s))
    (NavigationHandler.prettyName s).

(** The jumpable flattened symbols, in flattening order. *)
Definition jumpables (symbols : list DocumentSymbol)
  : list NavigationHandler.FlatSymbol :=
  filter (fun s => NavigationHandler.isJumpableKind (NavigationHandler.kind s))
    (NavigationHandler.flattenSymbols symbols []).

(** A target sits at position [p]. *)
Definition atPosition (p : Position) (t : NavigationHandler.JumpTarget) : bool :=
  (line (NavigationHandler.position t) =? line p)%N
  && (character (NavigationHandler.position t) =? character p)%N.

(** [positionAt] never goes back as the offset grows. *)
Definition monotonePositions (document : TextDocument) : Prop :=
  forall i j, (i <= j)%N ->
              posLe (positionAt document i) (positionAt document j).

(** ** Announcements scheduled and not cancelled *)

Definition timeoutEqb (t u : NavigationHandler.Timeout) : bool :=
  String.eqb (NavigationHandler.message t) (NavigationHandler.message u)
  && (NavigationHandler.delay t =? NavigationHandler.delay u)%N.

(** [clearTimeout(t)] takes [t] out of the scheduled timers. *)
Fixpoint cancel (t : NavigationHandler.Timeout)
         (pending : list NavigationHandler.Timeout)
  : list NavigationHandler.Timeout :=
  match pending with
  | [] => []
  | u :: rest => if timeoutEqb t u then rest else u :: cancel t rest
  end.

Definition pendingAfter (pending : list NavigationHandler.Timeout)
           (c : NavigationHandler.HostCall) : list NavigationHandler.Timeout :=
  match c with
  | NavigationHandler.SetTimeout t => pending ++ [t]
  | NavigationHandler.ClearTimeout t => cancel t pending
  | _ => pending
  end.

(** The timers set and not cleared by a sequence of host calls. *)
Definition pendingTimers (calls : list NavigationHandler.HostCall)
  : list NavigationHandler.Timeout :=
  fold_left pendingAfter calls [].

(** The only timer set and not cleared is the one in [lastTimeout]. *)
Definition debounced (host : NavigationHandler.Host) : Prop :=
  pendingTimers (NavigationHandler.calls host)
  = match NavigationHandler.lastTimeout host with
    | Some t => [t]
    | None => []
    end.

(** A run of navigation commands, one after the other. *)
Definition navigate (directions : list string) (host : NavigationHandler.Host)
  : NavigationHandler.Host :=
  fold_left (fun h d => NavigationHandler.moveCursorToSymbol d h) directions host.

(** Where the cursor of the active editor is. *)
Definition cursorOf (host : NavigationHandler.Host) : option Position :=
  option_map active (NavigationHandler.activeTextEditor host).

(** ** Reusing a [Selection] *)

(** The symbols [detectCurrentBlock] asks the provider for. *)
Definition providedSymbols (editor : TextEditor) : list DocumentSymbol :=
  match executeDocumentSymbolProvider (document editor) with
  | Some l => l
  | None => []
  end.

(** The entry [detectCurrentBlock] selects for [this] in [editor]. *)
Definition selected (this : CodeParser.Selection) (editor : TextEditor)
  : option CodeParser.FlatEntry :=
  CodeParser.containing (CodeParser.walk (providedSymbols editor) [] [])
    (active editor) (CodeParser.wantKindOf (CodeParser.blockType this)).

(** An entry is a candidate: its range holds the cursor, its kind is
    wanted. *)
Definition candidate (this : CodeParser.Selection) (editor : TextEditor)
           (e : CodeParser.FlatEntry) : bool :=
  CodeParser.inRange (active editor) (range (CodeParser.sym e))
  && CodeParser.kindWanted (CodeParser.wantKindOf (CodeParser.blockType this))
       (kind (CodeParser.sym e)).

(** [detectCurrentBlock] called on the same object for one editor after
    the other, going on after a throw with the object as it was left. *)
Definition detectEach (editors : list TextEditor) (this : CodeParser.Selection)
  : CodeParser.Selection :=
  fold_left (fun s ed => CodeParser.finalState (CodeParser.detectCurrentBlock s ed))
    editors this.

(** The code unit [c] occurs in [s]. *)
Fixpoint occurs (c : ascii) (s : string) : bool :=
  match s with
  | EmptyString => false
  | String x s' => Ascii.eqb x c || occurs c s'
  end.

(** Every symbol of a list holds the position in its range. *)
Definition allContain (position : Position) (symbols : list DocumentSymbol) : Prop :=
  Forall (fun a => contains (range a) position = true) symbols.

(** The test of the two loops of [moveCursorToSymbol]: target [t] lies
    beyond [current] in the direction asked for. *)
Definition ahead (direction : string) (current : Position)
           (t : NavigationHandler.JumpTarget) : bool :=
  if String.eqb direction "next"
  then isAfter (NavigationHandler.position t) current
  else isBefore (NavigationHandler.position t) current.

(** How many targets lie beyond [current] in that direction. *)
Definition remaining (direction : string) (current : Position)
           (targets : list NavigationHandler.JumpTarget) : nat :=
  List.length (filter (ahead direction current) targets).

(** No symbol of the provider's answer, if there is one, is jumpable. *)
Definition noJumpable (document : TextDocument) : Prop :=
  forall symbols, executeDocumentSymbolProvider document = Some symbols ->
                  ~ hasJumpable symbols.

End Spec.

(* ===================================================================== *)
(** * Properties *)
(* ===================================================================== *)

Import Vscode.

(** ** Positions and ranges *)

Section Positions.
Import CodeParser Spec.

Lemma isAfter_posLt (p q : Position) : isAfter p q = true <-> posLt q p.
Proof.
  unfold isAfter, posLt.
  rewrite orb_true_iff, andb_true_iff, !N.ltb_lt, N.eqb_eq.
  intuition auto.
Qed.

Lemma isBefore_posLt (p q : Position) : isBefore p q = true <-> posLt p q.
Proof.
  unfold isBefore, posLt.
  rewrite orb_true_iff, andb_true_iff, !N.ltb_lt, N.eqb_eq.
  intuition auto.
Qed.

Lemma posLe_refl (p : Position) : posLe p p.
Proof. unfold posLe; right; split; [reflexivity | lia]. Qed.

Lemma posLe_trans (p q r : Position) : posLe p q -> posLe q r -> posLe p r.
Proof. unfold posLe; intros [H1|[H1 H1']] [H2|[H2 H2']]; lia. Qed.

Lemma posLt_le_trans (p q r : Position) : posLt p q -> posLe q r -> posLt p r.
Proof. unfold posLe, posLt; intros [H1|[H1 H1']] [H2|[H2 H2']]; lia. Qed.

Lemma posLe_lt_trans (p q r : Position) : posLe p q -> posLt q r -> posLt p r.
Proof. unfold posLe, posLt; intros [H1|[H1 H1']] [H2|[H2 H2']]; lia. Qed.

Lemma posLt_not_le (p q : Position) : posLt p q -> ~ posLe q p.
Proof. unfold posLe, posLt; intros [H1|[H1 H1']] [H2|[H2 H2']]; lia. Qed.

Lemma posLe_or_lt (p q : Position) : posLe p q \/ posLt q p.
Proof. unfold posLe, posLt; lia. Qed.

(** C9. [inRange pos range] holds exactly when [pos] lies in the closed
    interval from [range.start] to [range.end] of the order by line,
    then character; on the first and the last line the characters
    decide. This holds for every range, so in particular for every range
    with [start <= end]. *)
Theorem inRange_closed_interval (pos : Position) (range : Range) :
  inRange pos range = true
  <-> posLe (start range) pos /\ posLe pos (end_ range).
Proof.
  unfold inRange, posLe.
  destruct (N.ltb_spec (line pos) (line (start range)));
    destruct (N.ltb_spec (line (end_ range)) (line pos));
    destruct (N.eqb_spec (line pos) (line (start range)));
    destruct (N.eqb_spec (line pos) (line (end_ range)));
    destruct (N.ltb_spec (character pos) (character (start range)));
    destruct (N.ltb_spec (character (end_ range)) (character pos));
    cbn; split; intros; try discriminate; try lia; auto.
Qed.

(** C10. For ranges with [start <= end] and every column below 10000, a
    range nested in another has at most the other's [rangeSize]. *)
Theorem rangeSize_monotone (r1 r2 : Range) :
  wellFormed r1 -> wellFormed r2 ->
  columnsBelow 10000 r1 -> columnsBelow 10000 r2 ->
  nestedIn r1 r2 ->
  (rangeSize r1 <= rangeSize r2)%Z.
Proof.
  unfold wellFormed, columnsBelow, nestedIn, posLe, rangeSize.
  intros W1 W2 [C1 C1'] [C2 C2'] [S E].
  lia.
Qed.

Lemma rangeSize_monotone_witness :
  let inner := mkRange (mkPosition 2 2) (mkPosition 4 2) in
  let outer := mkRange (mkPosition 0 0) (mkPosition 10 0) in
  nestedIn inner outer /\ (rangeSize inner <= rangeSize outer)%Z.
Proof.
  cbv zeta.
  assert (N : nestedIn (mkRange (mkPosition 2 2) (mkPosition 4 2))
                       (mkRange (mkPosition 0 0) (mkPosition 10 0))).
  { unfold nestedIn, posLe; cbn; lia. }
  split; [exact N|].
  apply rangeSize_monotone.
  - unfold wellFormed, posLe; cbn; lia.
  - unfold wellFormed, posLe; cbn; lia.
  - unfold columnsBelow; cbn; lia.
  - unfold columnsBelow; cbn; lia.
  - exact N.
Defined.

End Positions.

(** ** Flattening the symbol tree *)

Section Flattening.
Import Spec.

(** Induction on a symbol with the hypothesis for each child. *)
Lemma DocumentSymbol_children_ind (P : DocumentSymbol -> Prop) :
  (forall n k r cs, Forall P cs -> P (mkSymbol n k r cs)) ->
  forall s, P s.
Proof.
  intros step. fix self 1. intros [n k r cs]. apply step.
  induction cs as [|c cs IHcs]; constructor.
  - apply self.
  - exact IHcs.
Qed.

(** *** The recursion of [walk], unfolded *)

Lemma walkSymbol_children (par : list DocumentSymbol) (s : DocumentSymbol)
      (flat : list CodeParser.FlatEntry) :
  CodeParser.walkSymbol par s flat
  = CodeParser.walk (children s) (par ++ [s])
      (flat ++ [CodeParser.mkFlatEntry s par]).
Proof.
  destruct s as [n k r cs]. unfold CodeParser.walk.
  destruct cs as [|c cs]; [reflexivity|].
  cbn [CodeParser.walkSymbol children fold_left].
  generalize (CodeParser.walkSymbol (par ++ [mkSymbol n k r (c :: cs)]) c
                (flat ++ [CodeParser.mkFlatEntry (mkSymbol n k r (c :: cs)) par])).
  generalize (mkSymbol n k r (c :: cs)) as s.
  induction cs as [|c' cs IH]; intros s acc; cbn; [reflexivity|].
  apply IH.
Qed.

Lemma walk_cons (c : DocumentSymbol) (l par : list DocumentSymbol)
      (flat : list CodeParser.FlatEntry) :
  CodeParser.walk (c :: l) par flat
  = CodeParser.walk l par (CodeParser.walkSymbol par c flat).
Proof. reflexivity. Qed.

(** [walk] only appends to [flat]. *)
Lemma walk_appends_forest (l : list DocumentSymbol) :
  Forall (fun s => forall par flat,
              CodeParser.walkSymbol par s flat
              = flat ++ CodeParser.walkSymbol par s []) l ->
  forall par flat,
    CodeParser.walk l par flat = flat ++ CodeParser.walk l par [].
Proof.
  induction 1 as [|c l Hc _ IH]; intros par flat.
  - cbn. now rewrite app_nil_r.
  - rewrite !walk_cons, IH, Hc.
    rewrite (IH par (CodeParser.walkSymbol par c [])).
    now rewrite app_assoc.
Qed.

Lemma walkSymbol_appends (s : DocumentSymbol) :
  forall par flat,
    CodeParser.walkSymbol par s flat = flat ++ CodeParser.walkSymbol par s [].
Proof.
  induction s as [n k r cs IH] using DocumentSymbol_children_ind.
  intros par flat. rewrite !walkSymbol_children.
  rewrite (walk_appends_forest IH), (walk_appends_forest IH _ ([] ++ _)).
  cbn. now rewrite <- app_assoc.
Qed.

Lemma walk_appends (l par : list DocumentSymbol) (flat : list CodeParser.FlatEntry) :
  CodeParser.walk l par flat = flat ++ CodeParser.walk l par [].
Proof.
  apply walk_appends_forest, Forall_forall. intros s _. apply walkSymbol_appends.
Qed.

Lemma walkSymbol_preorder (par : list DocumentSymbol) (s : DocumentSymbol) :
  CodeParser.walkSymbol par s []
  = CodeParser.mkFlatEntry s par :: CodeParser.walk (children s) (par ++ [s]) [].
Proof. rewrite walkSymbol_children, walk_appends. reflexivity. Qed.

Lemma walk_preorder (c : DocumentSymbol) (l par : list DocumentSymbol) :
  CodeParser.walk (c :: l) par []
  = CodeParser.walkSymbol par c [] ++ CodeParser.walk l par [].
Proof. rewrite walk_cons, walk_appends. reflexivity. Qed.

(** *** The recursion of [flattenSymbols], unfolded *)

Lemma flattenSymbol_children (par : list DocumentSymbol) (s : DocumentSymbol) :
  NavigationHandler.flattenSymbol par s
  = NavigationHandler.spread s par
      :: NavigationHandler.flattenSymbols (children s) (par ++ [s]).
Proof.
  destruct s as [n k r cs]. unfold NavigationHandler.flattenSymbols.
  destruct cs as [|c cs]; reflexivity.
Qed.

Lemma original_spread (s : DocumentSymbol) (par : list DocumentSymbol) :
  original (NavigationHandler.spread s par) = s.
Proof. destruct s; reflexivity. Qed.

(** The two flatteners list the same symbols with the same ancestors. *)
Lemma flattenSymbols_walk_forest (l : list DocumentSymbol) :
  Forall (fun s => forall par,
              map (fun f => (original f, NavigationHandler.parent f))
                (NavigationHandler.flattenSymbol par s)
              = map (fun e => (CodeParser.sym e, CodeParser.parents e))
                  (CodeParser.walkSymbol par s [])) l ->
  forall par,
    map (fun f => (original f, NavigationHandler.parent f))
      (NavigationHandler.flattenSymbols l par)
    = map (fun e => (CodeParser.sym e, CodeParser.parents e))
        (CodeParser.walk l par []).
Proof.
  induction 1 as [|c l Hc _ IH]; intros par; [reflexivity|].
  rewrite walk_preorder. unfold NavigationHandler.flattenSymbols in *.
  cbn [flat_map]. now rewrite !map_app, Hc, IH.
Qed.

Lemma flattenSymbol_walkSymbol (s : DocumentSymbol) :
  forall par,
    map (fun f => (original f, NavigationHandler.parent f))
      (NavigationHandler.flattenSymbol par s)
    = map (fun e => (CodeParser.sym e, CodeParser.parents e))
        (CodeParser.walkSymbol par s []).
Proof.
  induction s as [n k r cs IH] using DocumentSymbol_children_ind.
  intros par. rewrite flattenSymbol_children, walkSymbol_preorder.
  cbn [map]. rewrite original_spread. f_equal.
  apply (flattenSymbols_walk_forest IH).
Qed.

Lemma flattenSymbols_walk (l par : list DocumentSymbol) :
  map (fun f => (original f, NavigationHandler.parent f))
    (NavigationHandler.flattenSymbols l par)
  = map (fun e => (CodeParser.sym e, CodeParser.parents e))
      (CodeParser.walk l par []).
Proof.
  apply flattenSymbols_walk_forest, Forall_forall.
  intros s _. apply flattenSymbol_walkSymbol.
Qed.

(** *** Addresses in pre-order *)

Lemma StronglySorted_app (A : Type) (R : A -> A -> Prop) (l1 l2 : list A) :
  StronglySorted R l1 -> StronglySorted R l2 ->
  (forall x y, In x l1 -> In y l2 -> R x y) ->
  StronglySorted R (l1 ++ l2).
Proof.
  induction 1 as [|a l1 S1 IH F]; intros S2 X; cbn; [exact S2|].
  constructor.
  - apply IH; [exact S2|]. intros x y Hx Hy. apply X; [now right | exact Hy].
  - apply Forall_app; split; [exact F|].
    apply Forall_forall. intros y Hy. apply X; [now left | exact Hy].
Qed.

Lemma pathLt_under (i : nat) (l : list (list nat)) :
  StronglySorted pathLt l -> StronglySorted pathLt (map (cons i) l).
Proof.
  induction 1 as [|p l _ IH F]; cbn; constructor; [exact IH|].
  apply Forall_map. revert F. apply Forall_impl. intros q Hq. cbn. now right.
Qed.

Lemma numbered_head (f : DocumentSymbol -> list (list nat))
      (l : list DocumentSymbol) :
  forall i p, In p (numbered f l i) -> exists j rest, p = j :: rest /\ i <= j.
Proof.
  induction l as [|c l IH]; intros i p; cbn; [tauto|].
  rewrite in_app_iff, in_map_iff. intros [(rest & <- & _)|Hin].
  - exists i, rest. split; [reflexivity | lia].
  - destruct (IH _ _ Hin) as (j & rest & -> & Hj).
    exists j, rest. split; [reflexivity | lia].
Qed.

Lemma numbered_sorted (f : DocumentSymbol -> list (list nat))
      (l : list DocumentSymbol) :
  Forall (fun c => StronglySorted pathLt (f c)) l ->
  forall i, StronglySorted pathLt (numbered f l i).
Proof.
  induction 1 as [|c l Hc _ IH]; intros i; cbn; [constructor|].
  apply StronglySorted_app; [now apply pathLt_under | apply IH |].
  intros x y Hx Hy. apply in_map_iff in Hx as (rest & <- & _).
  destruct (numbered_head _ _ _ _ Hy) as (j & rest' & -> & Hj).
  cbn. left. lia.
Qed.

Lemma pathsBelow_sorted (s : DocumentSymbol) : StronglySorted pathLt (pathsBelow s).
Proof.
  induction s as [n k r cs IH] using DocumentSymbol_children_ind.
  cbn [pathsBelow children]. constructor.
  - now apply numbered_sorted.
  - apply Forall_forall. intros p Hp.
    destruct (numbered_head _ _ _ _ Hp) as (j & rest & -> & _). exact I.
Qed.
(** *** Every node has its address in the list *)

Lemma nodeAt_middle (pre : list DocumentSymbol) (c : DocumentSymbol)
      (l : list DocumentSymbol) (rest : list nat) :
  nodeAt (pre ++ c :: l) (List.length pre :: rest) = descend c rest.
Proof.
  cbn. rewrite nth_error_app2 by lia. now rewrite Nat.sub_diag.
Qed.

Lemma ancestorsAt_middle (pre : list DocumentSymbol) (c : DocumentSymbol)
      (l : list DocumentSymbol) (rest : list nat) :
  ancestorsAt (pre ++ c :: l) (List.length pre :: rest) = chain c rest.
Proof.
  cbn. rewrite nth_error_app2 by lia. now rewrite Nat.sub_diag.
Qed.

Lemma numbered_complete (l : list DocumentSymbol) :
  Forall (fun c => forall p, In p (pathsBelow c) <-> descend c p <> None) l ->
  forall pre p,
    In p (numbered pathsBelow l (List.length pre))
    <-> exists j rest, p = j :: rest /\ List.length pre <= j
                       /\ nodeAt (pre ++ l) p <> None.
Proof.
  induction 1 as [|c l Hc _ IH]; intros pre p.
  - cbn [numbered In]. split; [tauto|].
    intros (j & rest & -> & Hj & Hn). apply Hn. cbn.
    rewrite app_nil_r. apply nth_error_None in Hj. now rewrite Hj.
  - cbn [numbered]. rewrite in_app_iff, in_map_iff.
    specialize (IH (pre ++ [c]) p).
    rewrite length_app, Nat.add_1_r, <- app_assoc in IH. cbn [app] in IH.
    rewrite IH. clear IH. split.
    + intros [(rest & <- & Hin)|(j & rest & -> & Hj & Hn)].
      * exists (List.length pre), rest. rewrite nodeAt_middle.
        split; [reflexivity|]. split; [lia|]. now apply Hc.
      * exists j, rest. split; [reflexivity|]. split; [lia | exact Hn].
    + intros (j & rest & -> & Hj & Hn).
      destruct (Nat.eq_dec j (List.length pre)) as [->|Hne].
      * left. exists rest. split; [reflexivity|].
        rewrite nodeAt_middle in Hn. now apply Hc.
      * right. exists j, rest. split; [reflexivity|]. split; [lia | exact Hn].
Qed.

Lemma pathsBelow_complete (s : DocumentSymbol) :
  forall p, In p (pathsBelow s) <-> descend s p <> None.
Proof.
  induction s as [n k r cs IH] using DocumentSymbol_children_ind.
  intros p. cbn [pathsBelow children In].
  rewrite (numbered_complete IH [] p). cbn [List.length app]. split.
  - intros [<-|(j & rest & -> & _ & Hn)]; [discriminate | exact Hn].
  - destruct p as [|j rest]; [now left|]. intros Hn. right.
    exists j, rest. split; [reflexivity|]. split; [lia | exact Hn].
Qed.

(** *** The entries, address by address *)

Lemma Forall2_map_left (A B C : Type) (R : B -> C -> Prop) (f : A -> B)
      (l : list A) (l' : list C) :
  Forall2 (fun a c => R (f a) c) l l' -> Forall2 R (map f l) l'.
Proof. induction 1; cbn; constructor; assumption. Qed.

Lemma Forall2_map_right (A B C : Type) (R : A -> C -> Prop) (g : B -> C)
      (l : list A) (l' : list B) :
  Forall2 (fun a b => R a (g b)) l l' -> Forall2 R l (map g l').
Proof. induction 1; cbn; constructor; assumption. Qed.

Lemma numbered_listing (l : list DocumentSymbol) :
  Forall (fun c => forall par,
              Forall2 (fun p e => descend c p = Some (CodeParser.sym e)
                                  /\ par ++ chain c p = CodeParser.parents e)
                (pathsBelow c) (CodeParser.walkSymbol par c [])) l ->
  forall pre par,
    Forall2 (fun p e => nodeAt (pre ++ l) p = Some (CodeParser.sym e)
                        /\ par ++ ancestorsAt (pre ++ l) p = CodeParser.parents e)
      (numbered pathsBelow l (List.length pre)) (CodeParser.walk l par []).
Proof.
  induction 1 as [|c l Hc _ IH]; intros pre par; [constructor|].
  rewrite walk_preorder. cbn [numbered]. apply Forall2_app.
  - apply Forall2_map_left. generalize (Hc par). apply Forall2_impl.
    intros p e. now rewrite nodeAt_middle, ancestorsAt_middle.
  - specialize (IH (pre ++ [c]) par).
    rewrite length_app, Nat.add_1_r, <- app_assoc in IH. exact IH.
Qed.

Lemma pathsBelow_listing (s : DocumentSymbol) :
  forall par,
    Forall2 (fun p e => descend s p = Some (CodeParser.sym e)
                        /\ par ++ chain s p = CodeParser.parents e)
      (pathsBelow s) (CodeParser.walkSymbol par s []).
Proof.
  induction s as [n k r cs IH] using DocumentSymbol_children_ind.
  intros par. rewrite walkSymbol_preorder. cbn [pathsBelow children].
  constructor.
  - cbn. now rewrite app_nil_r.
  - generalize (numbered_listing IH [] (par ++ [mkSymbol n k r cs])).
    cbn [app List.length]. apply Forall2_impl.
    intros [|j rest] e [Hnode Hanc]; [discriminate|].
    split; [exact Hnode|]. cbn [chain children].
    rewrite <- Hanc, <- app_assoc. reflexivity.
Qed.

(** C2. Both flatteners ([walk] of codeParser.js and [flattenSymbols] of
    navigationHandler.js) list the nodes of the symbol forest in depth-first
    pre-order, children in their input order, every node exactly once, and
    the ancestors recorded with a node are the symbols on the way from its
    root down to it, the node itself excluded. *)
Theorem flatten_preorder_once (roots : list DocumentSymbol) :
  PreorderListing roots
    (map (fun e => (CodeParser.sym e, CodeParser.parents e))
       (CodeParser.walk roots [] []))
  /\ PreorderListing roots
       (map (fun f => (original f, NavigationHandler.parent f))
          (NavigationHandler.flattenSymbols roots [])).
Proof.
  rewrite flattenSymbols_walk.
  assert (L : PreorderListing roots
                (map (fun e => (CodeParser.sym e, CodeParser.parents e))
                   (CodeParser.walk roots [] []))); [|split; exact L].
  exists (pathsOf roots). split; [|split].
  - apply numbered_sorted, Forall_forall. intros s _. apply pathsBelow_sorted.
  - intros p. unfold pathsOf.
    assert (F : Forall (fun c => forall p, In p (pathsBelow c) <-> descend c p <> None)
                  roots)
      by (apply Forall_forall; intros s _; apply pathsBelow_complete).
    rewrite (numbered_complete F [] p). cbn [List.length app]. split.
    + intros (j & rest & -> & _ & Hn). exact Hn.
    + destruct p as [|j rest]; [intros Hn; now elim Hn|].
      intros Hn. exists j, rest. split; [reflexivity|]. split; [lia | exact Hn].
  - apply Forall2_map_right. cbn [fst snd].
    assert (F : Forall (fun c => forall par,
                Forall2 (fun p e => descend c p = Some (CodeParser.sym e)
                                    /\ par ++ chain c p = CodeParser.parents e)
                  (pathsBelow c) (CodeParser.walkSymbol par c [])) roots)
      by (apply Forall_forall; intros s _; apply pathsBelow_listing).
    exact (numbered_listing F [] []).
Qed.
End Flattening.

(** ** The block locator *)

Section BlockLocator.
Import CodeParser.

Section SortedByKey.
Variable A : Type.
Variable key : A -> Z.

Let byKey (a b : A) : Z := (key a - key b)%Z.

Lemma insert_head (x : A) (l : list A) :
  hd_error (JS.insert byKey x l)
  = Some (match l with
          | [] => x
          | y :: _ => if (key x - key y <=? 0)%Z then x else y
          end).
Proof.
  destruct l as [|y l]; cbn; [reflexivity|].
  unfold byKey. now destruct (key x - key y <=? 0)%Z.
Qed.

(** The sort is stable: the elements of one key keep their order. *)
Lemma insert_stable (k : Z) (x : A) (l : list A) :
  filter (fun y => (key y =? k)%Z) (JS.insert byKey x l)
  = filter (fun y => (key y =? k)%Z) (x :: l).
Proof.
  induction l as [|y l IH]; [reflexivity|].
  cbn [JS.insert]. unfold byKey at 1.
  destruct (Z.leb_spec (key x - key y) 0) as [Hle|Hgt]; [reflexivity|].
  cbn [filter] in *. rewrite IH.
  destruct (Z.eqb_spec (key x) k), (Z.eqb_spec (key y) k); try reflexivity.
  lia.
Qed.

Lemma sort_stable (k : Z) (l : list A) :
  filter (fun y => (key y =? k)%Z) (JS.sort byKey l)
  = filter (fun y => (key y =? k)%Z) l.
Proof.
  induction l as [|x l IH]; [reflexivity|].
  cbn [JS.sort fold_right]. fold (JS.sort byKey l).
  rewrite insert_stable. cbn [filter]. now rewrite IH.
Qed.

(** Index 0 of the sorted array: the first, in the order of the input, of
    the elements with the least key. *)
Lemma sort_head_first_least (l : list A) :
  l <> [] ->
  exists before e after,
    l = before ++ e :: after
    /\ hd_error (JS.sort byKey l) = Some e
    /\ (forall x, In x before -> (key e < key x)%Z)
    /\ (forall x, In x after -> (key e <= key x)%Z).
Proof.
  induction l as [|x l IH]; intros Hne; [now elim Hne|].
  cbn [JS.sort fold_right]. fold (JS.sort byKey l). rewrite insert_head.
  destruct l as [|y l].
  - exists [], x, []. cbn. repeat split; intros ? [].
  - destruct IH as (before & e & after & Hl & Hhd & Hb & Ha); [discriminate|].
    destruct (JS.sort byKey (y :: l)) as [|z sorted] eqn:Hs; [discriminate|].
    cbn in Hhd. injection Hhd as ->.
    destruct (Z.leb_spec (key x - key e) 0).
    + exists [], x, (y :: l). cbn [app]. repeat split.
      * intros ? [].
      * intros w Hw. rewrite Hl in Hw. apply in_app_iff in Hw as [Hw|[<-|Hw]].
        -- specialize (Hb _ Hw). lia.
        -- lia.
        -- specialize (Ha _ Hw). lia.
    + exists (x :: before), e, after. rewrite Hl. cbn [app]. repeat split.
      * intros w [<-|Hw]; [lia | now apply Hb].
      * exact Ha.
Qed.
End SortedByKey.

Lemma filter_split (A : Type) (f : A -> bool) (l : list A) :
  forall l1 e l2,
    filter f l = l1 ++ e :: l2 ->
    exists before after,
      l = before ++ e :: after /\ filter f before = l1 /\ filter f after = l2.
Proof.
  induction l as [|x l IH]; intros l1 e l2 H; cbn in H.
  - now destruct l1.
  - destruct (f x) eqn:Hx.
    + destruct l1 as [|y l1]; cbn in H; injection H as <- H.
      * exists [], l. repeat split. exact H.
      * destruct (IH _ _ _ H) as (b & a & -> & Hb & Ha).
        exists (x :: b), a. cbn. rewrite Hx, Hb. repeat split. exact Ha.
    + destruct (IH _ _ _ H) as (b & a & -> & Hb & Ha).
      exists (x :: b), a. cbn. rewrite Hx. repeat split; assumption.
Qed.

Lemma filter_filter (A : Type) (f g : A -> bool) (l : list A) :
  filter g (filter f l) = filter (fun x => f x && g x) l.
Proof.
  induction l as [|x l IH]; cbn; [reflexivity|].
  destruct (f x); cbn; [destruct (g x)|]; now rewrite IH.
Qed.

Lemma kindEq_eq (k1 k2 : SymbolKind) : kindEq k1 k2 = true <-> k1 = k2.
Proof.
  unfold kindEq. rewrite N.eqb_eq. split; [|now intros ->].
  destruct k1, k2; cbn; intros H; try reflexivity; discriminate.
Qed.

(** The two kind sets a [Selection] asks for. *)
Lemma kindWanted_blockType (blockType : string) (k : SymbolKind) :
  kindWanted (wantKindOf blockType) k = true
  <-> if String.eqb blockType "class" then k = Class
      else k = Function \/ k = Method.
Proof.
  unfold wantKindOf. destruct (String.eqb blockType "class"); cbn.
  - apply kindEq_eq.
  - rewrite !orb_true_iff, !kindEq_eq. intuition discriminate.
Qed.
(** The symbols [detectCurrentBlock] flattens, and the test an entry has to
    pass: its range holds the cursor and its kind is asked for. *)
Lemma containing_matches (flat : list FlatEntry) (cursor : Position)
      (wantKind : WantKind) :
  containing flat cursor wantKind
  = hd_error
      (JS.sort (fun a b => (rangeSize (range (sym a)) - rangeSize (range (sym b)))%Z)
         (filter (fun e => inRange cursor (range (sym e))
                           && kindWanted wantKind (kind (sym e))) flat)).
Proof. unfold containing. now rewrite filter_filter. Qed.

Lemma inRange_holds (pos : Position) (r : Range) :
  inRange pos r = true <-> Spec.holds r pos.
Proof.
  unfold inRange, Spec.holds, Spec.posLe.
  destruct (N.ltb_spec (line pos) (line (start r)));
    destruct (N.ltb_spec (line (end_ r)) (line pos));
    destruct (N.eqb_spec (line pos) (line (start r)));
    destruct (N.eqb_spec (line pos) (line (end_ r)));
    destruct (N.ltb_spec (character pos) (character (start r)));
    destruct (N.ltb_spec (character (end_ r)) (character pos));
    cbn; split; intros; try discriminate; try lia; auto.
Qed.

Lemma rangeSize_spanSize (r : Range) : rangeSize r = Spec.spanSize r.
Proof. reflexivity. Qed.

(** The two filters of [detectCurrentBlock] keep the entries whose range
    holds the cursor and whose kind is in the set asked for. *)
Lemma filters_desired (blockType : string) (cursor : Position) (e : FlatEntry) :
  inRange cursor (range (sym e))
  && kindWanted (wantKindOf blockType) (kind (sym e)) = true
  <-> Spec.holds (range (sym e)) cursor
      /\ Spec.desiredKind blockType (kind (sym e)).
Proof.
  rewrite andb_true_iff, inRange_holds, kindWanted_blockType. reflexivity.
Qed.

(** C1. When some flattened entry of the desired kind ([Class] for block
    type [class], [Function] or [Method] otherwise) has a range that holds
    the cursor, [detectCurrentBlock] selects, among those entries, the one
    of least size (end.line - start.line) * 10000 + (end.column -
    start.column), and of several with that least size the one flattened
    first: every such entry flattened before the selected one is strictly
    larger, every one after it at least as large. The selected symbol's
    name is stored, and when both of its boundary lines are in the document
    the call returns with the block's lines, text and [selectionInClass]
    filled in. *)
Theorem detectCurrentBlock_innermost (this : Selection) (editor : TextEditor) :
  let doc := document editor in
  let cursor := active editor in
  let flat :=
    walk (match executeDocumentSymbolProvider doc with Some l => l | None => [] end)
      [] [] in
  let matching e :=
    Spec.holds (range (sym e)) cursor
    /\ Spec.desiredKind (blockType this) (kind (sym e)) in
  (exists e, In e flat /\ matching e) ->
  exists before e after,
    flat = before ++ e :: after
    /\ matching e
    /\ (forall x, In x before -> matching x ->
                   (Spec.spanSize (range (sym e)) < Spec.spanSize (range (sym x)))%Z)
    /\ (forall x, In x after -> matching x ->
                   (Spec.spanSize (range (sym e)) <= Spec.spanSize (range (sym x)))%Z)
    /\ containing flat cursor (wantKindOf (blockType this)) = Some e
    /\ name (finalState (detectCurrentBlock this editor)) = Vscode.name (sym e)
    /\ cursorInSelection (finalState (detectCurrentBlock this editor))
        = cursorInSelection this
    /\ (forall first last,
           lineAt doc (line (start (range (sym e)))) = Some first ->
           lineAt doc (line (end_ (range (sym e)))) = Some last ->
           detectCurrentBlock this editor
           = Returned
               {| firstLine := Some first; lastLine := Some last;
                  cursorInSelection := cursorInSelection this;
                  blockType := blockType this;
                  name := Vscode.name (sym e);
                  text := getText doc (Some (range (sym e)));
                  selectionInClass :=
                    existsb (fun p => kindEq (kind p) Class) (parents e) |}).
Proof.
  intros doc cursor flat matching (e0 & Hin0 & Hm0).
  set (candidate := fun e : FlatEntry =>
         inRange cursor (range (sym e))
         && kindWanted (wantKindOf (blockType this)) (kind (sym e))).
  assert (Bridge : forall e, candidate e = true <-> matching e)
    by (intros e; apply filters_desired).
  assert (Hne : filter candidate flat <> []).
  { intros Hnil.
    assert (Hf : In e0 (filter candidate flat))
      by (apply filter_In; split; [exact Hin0 | now apply Bridge]).
    rewrite Hnil in Hf. exact Hf. }
  destruct (sort_head_first_least (fun e => rangeSize (range (sym e))) Hne)
    as (l1 & e & l2 & Hsplit & Hhd & Hl1 & Hl2).
  destruct (filter_split _ _ _ _ _ Hsplit) as (before & after & Hflat & Hb & Ha).
  assert (Hce : candidate e = true).
  { assert (Hf : In e (filter candidate flat))
      by (rewrite Hsplit; apply in_elt).
    now apply filter_In in Hf. }
  assert (Hcont : containing flat cursor (wantKindOf (blockType this)) = Some e).
  { rewrite containing_matches. exact Hhd. }
  exists before, e, after. split; [exact Hflat|].
  split; [now apply Bridge|].
  split; [|split].
  - intros x Hx Hmx. rewrite <- !rangeSize_spanSize. apply Hl1. rewrite <- Hb.
    apply filter_In. split; [exact Hx | now apply Bridge].
  - intros x Hx Hmx. rewrite <- !rangeSize_spanSize. apply Hl2. rewrite <- Ha.
    apply filter_In. split; [exact Hx | now apply Bridge].
  - split; [exact Hcont|].
    unfold detectCurrentBlock. fold doc cursor flat. rewrite Hcont.
    destruct e as [s ps]. cbn [sym parents].
    destruct (lineAt doc (line (start (range s)))) as [first|];
      [destruct (lineAt doc (line (end_ (range s)))) as [last|]|];
      cbn; repeat split; try reflexivity; intros fl ll Hf Hl;
      try discriminate.
    now injection Hf as <-; injection Hl as <-.
Qed.

(** Cursor at (3,0) inside three blocks of the desired kind: [top], of size
    100000, then [f] and [g], both of size 20000. The smaller size wins over
    [top], and of the two equal ones [f], flattened first, is selected. *)
Lemma detectCurrentBlock_innermost_witness :
  map (fun e => (Vscode.name (sym e), rangeSize (range (sym e))))
    (walk [Scenario.top] [] [])
  = [("top", 100000); ("f", 20000); ("g", 20000)]%string%Z
  /\ containing (walk [Scenario.top] [] []) (mkPosition 3 0)
        (wantKindOf "function")
     = Some (mkFlatEntry Scenario.f [Scenario.top])
  /\ name (finalState (detectCurrentBlock (newSelection "function")
                          (Scenario.nestedEditorAt 3 0))) = "f"%string.
Proof.
  destruct (detectCurrentBlock_innermost (newSelection "function")
              (Scenario.nestedEditorAt 3 0)) as (before & e & after & H).
  - exists (mkFlatEntry Scenario.g [Scenario.top; Scenario.f]). split.
    + right. right. left. reflexivity.
    + split; [unfold Spec.holds, Spec.posLe; cbn; lia | now right].
  - destruct H as (_ & _ & _ & _ & Hc & Hn & _).
    split; [reflexivity|].
    assert (He : e = mkFlatEntry Scenario.f [Scenario.top])
      by (cbn in Hc; now injection Hc as <-).
    subst e. split; [exact Hc | exact Hn].
Defined.

(** C8. With the cursor outside the range of every entry of the desired
    kind, [detectCurrentBlock] returns (it does not throw), having set
    [cursorInSelection] to [false] and left every other field as it
    was. *)
Theorem detectCurrentBlock_outside (this : Selection) (editor : TextEditor) :
  let doc := document editor in
  let flat :=
    walk (match executeDocumentSymbolProvider doc with Some l => l | None => [] end)
      [] [] in
  (forall e, In e flat ->
             kindWanted (wantKindOf (blockType this)) (kind (sym e)) = true ->
             inRange (active editor) (range (sym e)) = false) ->
  detectCurrentBlock this editor
  = Returned {| firstLine := firstLine this; lastLine := lastLine this;
                cursorInSelection := false; blockType := blockType this;
                name := name this; text := text this;
                selectionInClass := selectionInClass this |}.
Proof.
  intros doc flat Hout. unfold detectCurrentBlock. fold doc flat.
  rewrite containing_matches.
  replace (filter _ flat) with (@nil FlatEntry); [reflexivity|].
  symmetry. clear -Hout. induction flat as [|e flat IH]; [reflexivity|].
  cbn [filter].
  destruct (inRange (active editor) (range (sym e))) eqn:Hr;
    [destruct (kindWanted (wantKindOf (blockType this)) (kind (sym e))) eqn:Hk|];
    cbn [andb].
  - rewrite (Hout e (or_introl eq_refl) Hk) in Hr. discriminate.
  - apply IH. intros x Hx. apply Hout. now right.
  - apply IH. intros x Hx. apply Hout. now right.
Qed.

Lemma detectCurrentBlock_outside_witness :
  detectCurrentBlock (newSelection "function") (Scenario.editorAt 7 0)
  = Returned {| firstLine := None; lastLine := None;
                cursorInSelection := false; blockType := "function";
                name := EmptyString; text := EmptyString;
                selectionInClass := false |}.
Proof.
  apply (detectCurrentBlock_outside (newSelection "function")
           (Scenario.editorAt 7 0)).
  intros e [<-|[<-|[]]]; cbn; [discriminate | reflexivity].
Defined.
End BlockLocator.

(** ** Jump targets *)

Section JumpTargets.
Import NavigationHandler Spec.

Section StableSort.
Variable A : Type.
Variable compareFn : A -> A -> Z.
Variable le : A -> A -> Prop.
Hypothesis compareFn_le : forall a b, (compareFn a b <= 0)%Z <-> le a b.
Hypothesis le_total : forall a b, le a b \/ le b a.
Hypothesis le_trans : forall a b c, le a b -> le b c -> le a c.

Lemma insert_perm (x : A) (l : list A) :
  Permutation (x :: l) (JS.insert compareFn x l).
Proof.
  induction l as [|y l IH]; cbn; [reflexivity|].
  destruct (compareFn x y <=? 0)%Z; [reflexivity|].
  rewrite perm_swap. now constructor.
Qed.

Lemma sort_perm (l : list A) : Permutation l (JS.sort compareFn l).
Proof.
  induction l as [|x l IH]; cbn; [constructor|].
  rewrite <- insert_perm. now constructor.
Qed.

Lemma insert_sorted (x : A) (l : list A) :
  StronglySorted le l -> StronglySorted le (JS.insert compareFn x l).
Proof.
  induction 1 as [|y l Hs IH Hy]; cbn; [repeat constructor|].
  destruct (Z.leb_spec (compareFn x y) 0) as [Hle|Hgt].
  - apply compareFn_le in Hle. constructor; [now constructor|].
    constructor; [exact Hle|]. revert Hy. apply Forall_impl.
    intros z Hz. now apply le_trans with y.
  - assert (Hyx : le y x).
    { destruct (le_total x y) as [Hxy|Hyx]; [|exact Hyx].
      apply compareFn_le in Hxy. lia. }
    constructor; [exact IH|].
    apply Forall_forall. intros z Hz.
    apply (Permutation_in _ (Permutation_sym (insert_perm x l))) in Hz.
    destruct Hz as [<-|Hz]; [exact Hyx|].
    rewrite Forall_forall in Hy. now apply Hy.
Qed.

Lemma sort_sorted (l : list A) : StronglySorted le (JS.sort compareFn l).
Proof.
  induction l as [|x l IH]; cbn; [constructor|]. now apply insert_sorted.
Qed.
End StableSort.

Lemma byPosition_posLe (a b : JumpTarget) :
  (byPosition a b <= 0)%Z <-> posLe (position a) (position b).
Proof.
  unfold byPosition, posLe.
  destruct (N.eqb_spec (line (position a)) (line (position b))); lia.
Qed.

Lemma targetsOfSymbols_ascending (symbols : list DocumentSymbol) :
  ascending (targetsOfSymbols symbols).
Proof.
  apply sort_sorted with (le := fun a b => posLe (position a) (position b)).
  - apply byPosition_posLe.
  - intros a b. destruct (posLe_or_lt (position a) (position b)) as [H|H].
    + now left.
    + right. unfold posLe, posLt in *. lia.
  - intros a b c. apply posLe_trans.
Qed.

(** What [getJumpTargets] returns, by the two tests it makes. *)
Lemma getJumpTargets_cases (document : TextDocument) :
  getJumpTargets document
  = match executeDocumentSymbolProvider document with
    | Some symbols =>
        match targetsOfSymbols symbols with
        | [] => targetsOfText document
        | flat => flat
        end
    | None => targetsOfText document
    end.
Proof.
  unfold getJumpTargets.
  destruct (executeDocumentSymbolProvider document) as [[|s symbols]|];
    [reflexivity| |reflexivity].
  cbn [List.length Nat.ltb Nat.leb]. fold (targetsOfSymbols (s :: symbols)).
  unfold getPositionFromRange. fold (targetsOfSymbols (s :: symbols)).
  now destruct (targetsOfSymbols (s :: symbols)).
Qed.

Lemma targetsOfSymbols_nonempty (symbols : list DocumentSymbol) :
  hasJumpable symbols -> targetsOfSymbols symbols <> [].
Proof.
  intros (s & Hin & Hj) Hnil.
  assert (Hs : In (mkJumpTarget (start (range s)) (prettyName s))
                  (targetsOfSymbols symbols)).
  { unfold targetsOfSymbols. eapply Permutation_in; [apply sort_perm|].
    apply in_map_iff. exists s. split; [reflexivity|].
    apply filter_In. now split. }
  rewrite Hnil in Hs. exact Hs.
Qed.

(** C4. Whatever symbols the provider returns, when at least one of them is
    jumpable (so that the provider path is the one taken) the targets
    [getJumpTargets] returns are in ascending order of position: line
    first, then character. *)
Theorem getJumpTargets_ascending (document : TextDocument)
        (symbols : list DocumentSymbol) :
  executeDocumentSymbolProvider document = Some symbols ->
  hasJumpable symbols ->
  ascending (getJumpTargets document).
Proof.
  intros Hp Hj. rewrite getJumpTargets_cases, Hp.
  pose proof (targetsOfSymbols_nonempty Hj) as Hne.
  pose proof (targetsOfSymbols_ascending symbols) as Hs.
  destruct (targetsOfSymbols symbols); [now elim Hne | exact Hs].
Qed.

Lemma getJumpTargets_ascending_witness :
  ascending (getJumpTargets Scenario.doc).
Proof.
  apply (@getJumpTargets_ascending Scenario.doc [Scenario.A]).
  - reflexivity.
  - exists (spread Scenario.A []). split; [left|]; reflexivity.
Defined.
(** C5, as the code has it. The fallback scan is used when the symbols of
    the provider give no jump target: whenever at least one flattened
    symbol is jumpable, [getJumpTargets] returns the targets of the symbols,
    and two documents with these symbols get the same targets whatever
    their text. *)
Theorem getJumpTargets_from_symbols (document other : TextDocument)
        (symbols : list DocumentSymbol) :
  executeDocumentSymbolProvider document = Some symbols ->
  executeDocumentSymbolProvider other = Some symbols ->
  hasJumpable symbols ->
  getJumpTargets document = targetsOfSymbols symbols
  /\ getJumpTargets other = getJumpTargets document.
Proof.
  intros Hd Ho Hj. pose proof (targetsOfSymbols_nonempty Hj) as Hne.
  rewrite !getJumpTargets_cases, Hd, Ho.
  destruct (targetsOfSymbols symbols); [now elim Hne | split; reflexivity].
Qed.

Lemma getJumpTargets_from_symbols_witness :
  getJumpTargets Scenario.doc = targetsOfSymbols [Scenario.A]
  /\ getJumpTargets (PlainText.textDocument "def greet():" (Some [Scenario.A]))
      = getJumpTargets Scenario.doc.
Proof.
  apply (@getJumpTargets_from_symbols Scenario.doc
           (PlainText.textDocument "def greet():" (Some [Scenario.A]))
           [Scenario.A]).
  - reflexivity.
  - reflexivity.
  - exists (spread Scenario.A []). split; [left|]; reflexivity.
Defined.

(** C5, as stated, fails: the provider returns one symbol, a variable; no
    flattened symbol is jumpable, and the targets are those of the scan of
    the text, not the (empty) list the symbols give. *)
Lemma getJumpTargets_scans_despite_symbols :
  let symbols :=
    [mkSymbol "x" Variable_ (mkRange (mkPosition 0 0) (mkPosition 0 1)) []] in
  let document := PlainText.textDocument "def greet():" (Some symbols) in
  executeDocumentSymbolProvider document = Some symbols
  /\ symbols <> []
  /\ getJumpTargets document = targetsOfText document
  /\ getJumpTargets document
      = [{| position := mkPosition 0 0; targetName := "greet" |}]
  /\ getJumpTargets document <> targetsOfSymbols symbols
  /\ getJumpTargets (PlainText.textDocument "x = 1" (Some symbols))
      <> getJumpTargets document.
Proof.
  cbv zeta. repeat split; try reflexivity; discriminate.
Qed.
End JumpTargets.

(** ** Display names *)

Section DisplayNames.
Import NavigationHandler Spec.

Lemma join_truthy_head (sep x : string) (l : list string) :
  JS.truthy x = true -> JS.truthy (JS.join sep (x :: l)) = true.
Proof.
  destruct x as [|c x]; [discriminate|]. intros _.
  destruct l; reflexivity.
Qed.

(** [joined || placeholder] on a chain without empty strings. *)
Lemma join_or_placeholder (sep placeholder : string) (chain : list string) :
  Forall (fun seg => JS.truthy seg = true) chain ->
  (if JS.truthy (JS.join sep chain) then JS.join sep chain else placeholder)
  = match chain with [] => placeholder | x :: l => JS.join sep (x :: l) end.
Proof.
  intros [|x l Hx _]; [reflexivity|]. now rewrite join_truthy_head.
Qed.

Lemma truthy_nonempty (x : string) : JS.truthy x = true <-> x <> EmptyString.
Proof. destruct x; cbn; split; congruence. Qed.

Lemma filter_truthy_all (l : list string) :
  Forall (fun seg => JS.truthy seg = true) (filter JS.truthy l).
Proof. apply Forall_forall. intros x Hx. now apply filter_In in Hx. Qed.

(** X13. Where the own name is empty, or not blank, [prettyName] is the
    display name of the specification: the trimmed names of the ancestors
    and of the symbol, the empty ones dropped, joined with [::], or the
    placeholder when none is left. *)
Lemma prettyName_displayName (sym : FlatSymbol) :
  name sym = EmptyString \/ JS.trim (name sym) <> EmptyString ->
  prettyName sym = displayName (map Vscode.name (parent sym)) (name sym).
Proof.
  intros Hown. unfold prettyName, displayName.
  rewrite map_app, filter_app, map_map. cbn [map filter].
  set (P := filter JS.truthy (map (fun p => JS.trim (Vscode.name p)) (parent sym))).
  assert (HP : Forall (fun seg => JS.truthy seg = true) P)
    by apply filter_truthy_all.
  destruct Hown as [Hempty|Hfull].
  - rewrite Hempty. cbn [JS.truthy JS.trim JS.trimStart JS.trimEnd].
    rewrite app_nil_r. now apply join_or_placeholder.
  - assert (Ht : JS.truthy (JS.trim (name sym)) = true)
      by now apply truthy_nonempty.
    assert (Hn : JS.truthy (name sym) = true).
    { apply truthy_nonempty. intros Hempty. apply Hfull.
      now rewrite Hempty. }
    rewrite Hn, Ht. apply join_or_placeholder.
    apply Forall_app. split; [exact HP|]. now constructor.
Qed.

(** C6. A method whose name is one space, inside class [A]: the own name is
    tested before it is trimmed, so its empty trimmed form is pushed on the
    chain and [prettyName] ends in a separator with nothing after it, where
    the display name of the specification is [A] alone. *)
Theorem prettyName_blank_own_name :
  let sym :=
    spread (mkSymbol " " Method (mkRange (mkPosition 2 2) (mkPosition 4 2)) [])
      [Scenario.A] in
  prettyName sym = "A::"%string
  /\ displayName (map Vscode.name (parent sym)) (name sym) = "A"%string
  /\ prettyName sym <> displayName (map Vscode.name (parent sym)) (name sym).
Proof.
  cbv zeta. repeat split. discriminate.
Qed.
End DisplayNames.

(** ** The navigator *)

Section Navigator.
Import NavigationHandler Spec.

(** A loop that stops at its first hit. *)
Lemma find_first (A : Type) (f : A -> bool) (l : list A) :
  (exists skipped t rest,
      l = skipped ++ t :: rest /\ f t = true
      /\ (forall x, In x skipped -> f x = false)
      /\ find f l = Some t)
  \/ ((forall x, In x l -> f x = false) /\ find f l = None).
Proof.
  induction l as [|a l IH]; [right; split; [intros ? []|reflexivity]|].
  cbn [find]. destruct (f a) eqn:Ha.
  - left. exists [], a, l. repeat split; [exact Ha|]. intros ? [].
  - destruct IH as [(skipped & t & rest & -> & Ht & Hs & Hf)|[Hall Hf]].
    + left. exists (a :: skipped), t, rest. repeat split; try assumption.
      intros x [<-|Hx]; [exact Ha | now apply Hs].
    + right. split; [|exact Hf]. intros x [<-|Hx]; [exact Ha | now apply Hall].
Qed.

Lemma sorted_around (A : Type) (R : A -> A -> Prop) (l1 : list A) (a : A)
      (l2 : list A) :
  StronglySorted R (l1 ++ a :: l2) ->
  Forall (fun x => R x a) l1 /\ Forall (R a) l2.
Proof.
  induction l1 as [|x l1 IH]; cbn; intros H; inversion H as [|? ? Hs Hf]; subst.
  - split; [constructor | exact Hf].
  - destruct (IH Hs) as [H1 H2]. split; [|exact H2].
    constructor; [|exact H1].
    rewrite Forall_forall in Hf. apply Hf, in_elt.
Qed.

Lemma moveCursorToSymbol_pick (direction : string) (host : Host)
      (editor : TextEditor) :
  activeTextEditor host = Some editor ->
  getJumpTargets (document editor) <> [] ->
  moveCursorToSymbol direction host
  = match pickTarget direction (getJumpTargets (document editor)) (active editor) with
    | Some t => jumped (directionWord direction) host editor t
    | None => told host ("No " ++ directionWord direction ++ " symbol.")
    end.
Proof.
  intros Hed Hne. unfold moveCursorToSymbol. rewrite Hed.
  destruct (getJumpTargets (document editor)) as [|t0 ts]; [now elim Hne|].
  unfold told, jumped, announcement. rewrite Hed. reflexivity.
Qed.

(** C3. With targets in ascending order and not empty, [next] jumps to the
    first target strictly after the cursor and [previous], scanning from
    the end, to the first strictly before it; the target chosen is the
    nearest one on that side. Without a target on the side asked for the
    cursor stays where it is and the message is [No next symbol.] or
    [No previous symbol.], which is not the message of the empty list: the
    scan never continues from the other end. *)
Theorem moveCursorToSymbol_no_wrap (direction : string) (host : Host)
        (editor : TextEditor) :
  direction = "next"%string \/ direction = "previous"%string ->
  activeTextEditor host = Some editor ->
  getJumpTargets (document editor) <> [] ->
  ascending (getJumpTargets (document editor)) ->
  let targets := getJumpTargets (document editor) in
  let current := active editor in
  ((exists skipped t rest,
       scanOrder direction targets = skipped ++ t :: rest
       /\ beyond direction current (position t)
       /\ (forall x, In x skipped -> ~ beyond direction current (position x))
       /\ (forall x, In x targets -> beyond direction current (position x) ->
                      nearer direction (position t) (position x))
       /\ moveCursorToSymbol direction host = jumped direction host editor t)
   \/ ((forall x, In x targets -> ~ beyond direction current (position x))
        /\ moveCursorToSymbol direction host
            = told host ("No " ++ direction ++ " symbol.")))
  /\ ("No " ++ direction ++ " symbol.")%string
      <> "No symbols found to jump to."%string.
Proof.
  intros Hdir Hed Hne Hasc targets current.
  pose proof (moveCursorToSymbol_pick direction host Hed Hne) as Hmove.
  fold targets current in Hmove.
  destruct Hdir as [-> | ->]; (split; [|discriminate]);
    unfold pickTarget, directionWord, beyond, nearer, scanOrder in *;
    cbn [String.eqb Ascii.eqb Bool.eqb andb] in *.
  - destruct (find_first (fun t => isAfter (position t) current) targets)
      as [(skipped & t & rest & Hsplit & Ht & Hs & Hf)|[Hall Hf]];
      rewrite Hf in Hmove.
    + left. exists skipped, t, rest. split; [exact Hsplit|].
      split; [now apply isAfter_posLt|]. split; [|split; [|exact Hmove]].
      * intros x Hx Hb. apply isAfter_posLt in Hb.
        rewrite (Hs x Hx) in Hb. discriminate.
      * unfold ascending in Hasc. fold targets in Hasc. rewrite Hsplit in Hasc.
        destruct (sorted_around _ _ _ Hasc) as [_ Hafter].
        intros x Hx Hb. rewrite Hsplit in Hx.
        apply in_app_iff in Hx as [Hx|[<-|Hx]].
        -- apply isAfter_posLt in Hb. rewrite (Hs x Hx) in Hb. discriminate.
        -- apply posLe_refl.
        -- rewrite Forall_forall in Hafter. now apply Hafter.
    + right. split; [|exact Hmove].
      intros x Hx Hb. apply isAfter_posLt in Hb.
      rewrite (Hall x Hx) in Hb. discriminate.
  - destruct (find_first (fun t => isBefore (position t) current) (rev targets))
      as [(skipped & t & rest & Hsplit & Ht & Hs & Hf)|[Hall Hf]];
      rewrite Hf in Hmove.
    + left. exists skipped, t, rest. split; [exact Hsplit|].
      split; [now apply isBefore_posLt|]. split; [|split; [|exact Hmove]].
      * intros x Hx Hb. apply isBefore_posLt in Hb.
        rewrite (Hs x Hx) in Hb. discriminate.
      * assert (Hrev : targets = rev rest ++ t :: rev skipped).
        { rewrite <- (rev_involutive targets), Hsplit, rev_app_distr.
          cbn [rev]. now rewrite <- app_assoc. }
        unfold ascending in Hasc. fold targets in Hasc. rewrite Hrev in Hasc.
        destruct (sorted_around _ _ _ Hasc) as [Hbefore _].
        intros x Hx Hb. rewrite Hrev in Hx.
        apply in_app_iff in Hx as [Hx|[<-|Hx]].
        -- rewrite Forall_forall in Hbefore. now apply Hbefore.
        -- apply posLe_refl.
        -- apply in_rev in Hx. apply isBefore_posLt in Hb.
           rewrite (Hs x Hx) in Hb. discriminate.
    + right. split; [|exact Hmove].
      intros x Hx Hb. apply isBefore_posLt in Hb.
      rewrite (Hall x (proj1 (in_rev _ _) Hx)) in Hb. discriminate.
Qed.
Lemma moveCursorToSymbol_no_wrap_witness :
  let host := {| activeTextEditor := Some (Scenario.editorAt 0 0);
                 lastTimeout := None; calls := [] |} in
  (exists t, moveCursorToSymbol "next" host
             = jumped "next" host (Scenario.editorAt 0 0) t)
  \/ moveCursorToSymbol "next" host = told host "No next symbol.".
Proof.
  cbv zeta.
  destruct (@moveCursorToSymbol_no_wrap "next"
              {| activeTextEditor := Some (Scenario.editorAt 0 0);
                 lastTimeout := None; calls := [] |}
              (Scenario.editorAt 0 0))
    as [[(skipped & t & rest & _ & _ & _ & _ & H)|[_ H]] _].
  - left. reflexivity.
  - reflexivity.
  - vm_compute. discriminate.
  - assert (E : getJumpTargets (document (Scenario.editorAt 0 0))
                = [mkJumpTarget (mkPosition 0 0) "A";
                   mkJumpTarget (mkPosition 2 2) "A::foo"]) by reflexivity.
    rewrite E. unfold ascending, posLe.
    repeat constructor; cbn; lia.
  - left. exists t. exact H.
  - right. exact H.
Defined.

(** ** The scenario of the specification, run *)

(** C7, as stated, fails on its first part: the class is a jump target
    too. *)
Lemma scenario_targets_not_foo_alone :
  getJumpTargets Scenario.doc
  <> [{| position := mkPosition 2 2; targetName := "A::foo" |}].
Proof. vm_compute. discriminate. Qed.

(** C7, as the code has it. For class [A] at [0,0]-[10,0] holding method
    [foo] at [2,2]-[4,2] the jump targets are the class at (0,0) and then
    [A::foo] at (2,2). From the cursor at (0,0), [next] moves it to (2,2),
    reveals that position and schedules the announcement of [A::foo]; a
    second [next], from (2,2), leaves the cursor there and reports
    [No next symbol.]. *)
Theorem scenario_navigation :
  let host0 := {| activeTextEditor := Some (Scenario.editorAt 0 0);
                  lastTimeout := None; calls := [] |} in
  let host1 := moveCursorToSymbol "next" host0 in
  let host2 := moveCursorToSymbol "next" host1 in
  getJumpTargets Scenario.doc
  = [{| position := mkPosition 0 0; targetName := "A" |};
     {| position := mkPosition 2 2; targetName := "A::foo" |}]
  /\ option_map active (activeTextEditor host1) = Some (mkPosition 2 2)
  /\ calls host1
      = [RevealRange (mkRange (mkPosition 2 2) (mkPosition 2 2));
         SetTimeout {| message := "Moved next to A::foo."; delay := 300 |}]
  /\ option_map active (activeTextEditor host2) = Some (mkPosition 2 2)
  /\ calls host2 = calls host1 ++ [ShowInformationMessage "No next symbol."].
Proof. cbv zeta. repeat split; vm_compute; reflexivity. Qed.

(** The block locator on the same tree, cursor at (3,0). *)
Example scenario_block_function :
  CodeParser.detectCurrentBlock (CodeParser.newSelection "function")
    (Scenario.editorAt 3 0)
  = CodeParser.Returned
      {| CodeParser.firstLine := Some (mkTextLine 2 "  def foo(self):");
         CodeParser.lastLine := Some (mkTextLine 4 "  # done");
         CodeParser.cursorInSelection := true;
         CodeParser.blockType := "function";
         CodeParser.name := "foo";
         CodeParser.text :=
           ("def foo(self):" ++ Scenario.nl ++ "    return 1" ++ Scenario.nl
            ++ "  ")%string;
         CodeParser.selectionInClass := true |}.
Proof. reflexivity. Qed.

Example scenario_block_class :
  option_map (fun e => Vscode.name (CodeParser.sym e))
    (CodeParser.containing (CodeParser.walk [Scenario.A] [] [])
       (mkPosition 3 0) (CodeParser.wantKindOf "class"))
  = Some "A"%string.
Proof. reflexivity. Qed.
End Navigator.

(** ** The fallback scan *)

Section FallbackScan.
Import NavigationHandler Spec.

Lemma prefix_append (p s : string) :
  String.prefix p s = true <-> exists r, s = (p ++ r)%string.
Proof.
  revert s. induction p as [|a p IH]; intros s.
  - split; [intros _; now exists s | intros _; now destruct s].
  - destruct s as [|b s]; cbn;
      [split; [discriminate | intros (r & H); discriminate]|].
    destruct (ascii_dec a b) as [->|Hne].
    + rewrite IH. split; intros (r & H); exists r; congruence.
    + split; [discriminate|]. intros (r & H). congruence.
Qed.

Lemma dropChars_append (p r : string) :
  dropChars (String.length p) (p ++ r) = r.
Proof. induction p as [|a p IH]; cbn; [now destruct r | exact IH]. Qed.

Lemma takeWord_split (s : string) :
  exists rest, s = (takeWord s ++ rest)%string
               /\ wordChars (takeWord s) = true /\ wordEnds rest.
Proof.
  induction s as [|c s (rest & Hs & Hw & Hr)]; cbn.
  - exists EmptyString. repeat split.
  - destruct (isWordChar c) eqn:Hc; cbn.
    + exists rest. rewrite Hc, Hw. repeat split; [congruence | exact Hr].
    + exists (String c s). repeat split. exact Hc.
Qed.

Lemma takeWord_greedy (w rest : string) :
  wordChars w = true -> wordEnds rest -> takeWord (w ++ rest) = w.
Proof.
  induction w as [|c w IH]; cbn.
  - intros _. destruct rest as [|c rest]; cbn; [reflexivity|]. now intros ->.
  - intros H Hr. apply andb_true_iff in H as [-> Hw]. now rewrite IH.
Qed.

(** What the pattern matches at the head of a string. *)
Lemma matchHere_header (s kw w : string) :
  matchHere s = Some (kw, w)
  <-> (kw = "def "%string \/ kw = "class "%string)
      /\ exists rest, s = (kw ++ w ++ rest)%string
                      /\ w <> EmptyString /\ wordChars w = true /\ wordEnds rest.
Proof.
  unfold matchHere. split.
  - destruct (String.prefix "def " s) eqn:Hd;
      [|destruct (String.prefix "class " s) eqn:Hc; [|discriminate]].
    + apply prefix_append in Hd as (r & ->).
      rewrite dropChars_append.
      destruct (takeWord_split r) as (rest & Hr & Hw & He).
      destruct (takeWord r) as [|c w'] eqn:Ht; [discriminate|].
      intros H. injection H as <- <-. split; [now left|].
      exists rest. rewrite <- Hr. repeat split; [discriminate | exact Hw | exact He].
    + apply prefix_append in Hc as (r & ->).
      rewrite dropChars_append.
      destruct (takeWord_split r) as (rest & Hr & Hw & He).
      destruct (takeWord r) as [|c w'] eqn:Ht; [discriminate|].
      intros H. injection H as <- <-. split; [now right|].
      exists rest. rewrite <- Hr. repeat split; [discriminate | exact Hw | exact He].
  - intros (Hkw & rest & -> & Hne & Hw & He).
    destruct Hkw as [-> | ->].
    + assert (P : String.prefix "def " ("def " ++ w ++ rest) = true)
        by (apply prefix_append; now exists (w ++ rest)%string).
      rewrite P, dropChars_append, takeWord_greedy by assumption.
      destruct w; [now elim Hne | reflexivity].
    + destruct (String.prefix "def " ("class " ++ w ++ rest)) eqn:D.
      { apply prefix_append in D as (r & D). discriminate D. }
      assert (P : String.prefix "class " ("class " ++ w ++ rest) = true)
        by (apply prefix_append; now exists (w ++ rest)%string).
      rewrite P, dropChars_append, takeWord_greedy by assumption.
      destruct w; [now elim Hne | reflexivity].
Qed.
Lemma wordChar_no_terminator (c : ascii) :
  isWordChar c = true -> isLineTerminator c = false.
Proof.
  destruct c as [[] [] [] [] [] [] [] []]; vm_compute; congruence.
Qed.

Lemma word_no_terminator (w rest : string) :
  wordChars w = true -> noTerminatorIn (String.length w) (w ++ rest).
Proof.
  induction w as [|c w IH]; cbn; [trivial|].
  intros H. apply andb_true_iff in H as [Hc Hw].
  split; [now apply wordChar_no_terminator | now apply IH].
Qed.

(** A match holds no line terminator. *)
Lemma matchHere_no_terminator (c : ascii) (s kw w : string) :
  matchHere (String c s) = Some (kw, w) ->
  isLineTerminator c = false
  /\ noTerminatorIn (String.length kw + String.length w - 1) s.
Proof.
  intros H. apply matchHere_header in H as (Hkw & rest & Hs & _ & Hw & _).
  destruct Hkw as [-> | ->]; cbn in Hs; injection Hs as -> ->.
  - replace (String.length "def " + String.length w - 1)
      with (3 + String.length w) by (cbn; lia).
    split; [reflexivity|]. cbn. repeat split. now apply word_no_terminator.
  - replace (String.length "class " + String.length w - 1)
      with (5 + String.length w) by (cbn; lia).
    split; [reflexivity|]. cbn. repeat split. now apply word_no_terminator.
Qed.

(** The loop over [re.exec], with [lastIndex] inside a match, finds what a
    look at every line start finds. *)
Lemma execAll_definitionLines (s : string) :
  forall index previous skip,
    skip = O
    \/ ((exists p, previous = Some p /\ isLineTerminator p = false)
        /\ noTerminatorIn skip s) ->
    execAll s index previous skip = definitionLines s index previous.
Proof.
  induction s as [|c s IH]; intros index previous skip H; [reflexivity|].
  destruct skip as [|k].
  - cbn [execAll definitionLines].
    destruct (if match previous with
                 | Some p => isLineTerminator p
                 | None => true
                 end then matchHere (String c s) else None)
      as [[kw w]|] eqn:M.
    + f_equal. apply IH. right.
      assert (M' : matchHere (String c s) = Some (kw, w)).
      { destruct previous as [p|]; [destruct (isLineTerminator p)|];
          congruence. }
      destruct (matchHere_no_terminator _ _ M') as [Hc Hs].
      split; [now exists c | exact Hs].
    + apply IH. now left.
  - destruct H as [H|[(p & -> & Hp) Hs]]; [discriminate|].
    cbn [execAll definitionLines]. rewrite Hp.
    apply IH. destruct Hs as [Hc Hs]. right. split; [now exists c | exact Hs].
Qed.

Lemma dropChars_empty (i : nat) : dropChars i EmptyString = EmptyString.
Proof. now destruct i. Qed.

Lemma definitionLines_In (s : string) :
  forall index previous idx w,
    In (idx, w) (definitionLines s index previous)
    <-> exists i, idx = (index + N.of_nat i)%N
                  /\ lineStartAfter previous s i
                  /\ exists kw, matchHere (dropChars i s) = Some (kw, w).
Proof.
  induction s as [|c s IH]; intros index previous idx w.
  - cbn. split; [tauto|]. intros (i & _ & _ & kw & H).
    rewrite dropChars_empty in H. discriminate.
  - assert (Hrest :
      In (idx, w) (definitionLines s (index + 1)%N (Some c))
      <-> exists i, idx = (index + N.of_nat (S i))%N
                    /\ lineStartAfter previous (String c s) (S i)
                    /\ exists kw, matchHere (dropChars (S i) (String c s))
                                  = Some (kw, w)).
    { rewrite IH. split; intros (i & Hi & Hl & Hm); exists i;
        (split; [lia|]); (split; [|exact Hm]);
        destruct i as [|j]; cbn in *; try exact Hl.
      - now exists c.
      - destruct Hl as (ch & Hch & Ht). congruence. }
    assert (Hhead :
      forall kw, (if match previous with
                     | Some p => isLineTerminator p
                     | None => true
                     end then matchHere (String c s) else None) = Some (kw, w)
                 <-> lineStartAfter previous (String c s) 0
                     /\ matchHere (dropChars 0 (String c s)) = Some (kw, w)).
    { intros kw. cbn [lineStartAfter dropChars].
      destruct previous as [p|]; [destruct (isLineTerminator p)|];
        intuition congruence. }
    cbn [definitionLines].
    destruct (if match previous with
                 | Some p => isLineTerminator p
                 | None => true
                 end then matchHere (String c s) else None)
      as [[kw0 w0]|] eqn:M.
    + cbn [In]. rewrite Hrest. split.
      * intros [E|(i & Hi)]; [|now exists (S i)].
        injection E as <- <-. exists 0. split; [lia|].
        destruct (proj1 (Hhead kw0) eq_refl) as [Hl Hm].
        split; [exact Hl | now exists kw0].
      * intros ([|i] & Hi & Hl & kw & Hm);
          [|right; exists i; split; [exact Hi|]; split; [exact Hl | now exists kw]].
        left. assert (E : Some (kw0, w0) = Some (kw, w))
          by (apply Hhead; now split).
        injection E as _ ->. f_equal. lia.
    + rewrite Hrest. split.
      * intros (i & Hi). now exists (S i).
      * intros ([|i] & Hi & Hl & kw & Hm);
          [|exists i; split; [exact Hi|]; split; [exact Hl | now exists kw]].
        assert (E : None = Some (kw, w)) by (apply Hhead; now split).
        discriminate.
Qed.

Lemma definitionLines_from (s : string) :
  forall index previous,
    Forall (fun m => (index <= fst m)%N) (definitionLines s index previous).
Proof.
  induction s as [|c s IH]; intros index previous; [constructor|].
  cbn [definitionLines].
  assert (H : Forall (fun m => (index <= fst m)%N)
                (definitionLines s (index + 1)%N (Some c))).
  { generalize (IH (index + 1)%N (Some c)). apply Forall_impl.
    intros m Hm. lia. }
  match goal with
  | |- context [match ?scrutinee with Some _ => _ | None => _ end] =>
      destruct scrutinee as [[kw w]|]
  end; [|exact H].
  constructor; [cbn; lia | exact H].
Qed.

Lemma definitionLines_increasing (s : string) :
  forall index previous,
    StronglySorted (fun a b => (fst a < fst b)%N)
      (definitionLines s index previous).
Proof.
  induction s as [|c s IH]; intros index previous; [constructor|].
  cbn [definitionLines].
  match goal with
  | |- context [match ?scrutinee with Some _ => _ | None => _ end] =>
      destruct scrutinee as [[kw w]|]
  end; [|apply IH].
  constructor; [apply IH|].
  generalize (definitionLines_from s (index + 1)%N (Some c)).
  apply Forall_impl. intros m Hm. cbn. lia.
Qed.
Lemma targetsOfSymbols_none (symbols : list DocumentSymbol) :
  ~ hasJumpable symbols -> targetsOfSymbols symbols = [].
Proof.
  intros Hno. unfold targetsOfSymbols.
  replace (filter _ (flattenSymbols symbols [])) with (@nil FlatSymbol);
    [reflexivity|].
  symmetry. unfold hasJumpable in Hno.
  induction (flattenSymbols symbols []) as [|x l IH]; [reflexivity|].
  cbn [filter]. destruct (isJumpableKind (kind x)) eqn:Hx.
  - elim Hno. exists x. split; [now left | exact Hx].
  - apply IH. intros (y & Hy & Hj). apply Hno. exists y. split; [now right | exact Hj].
Qed.

Lemma getJumpTargets_fallback (document : TextDocument) :
  noJumpable document -> getJumpTargets document = targetsOfText document.
Proof.
  intros Hno. rewrite getJumpTargets_cases.
  destruct (executeDocumentSymbolProvider document) as [symbols|] eqn:Hp;
    [|reflexivity].
  now rewrite (targetsOfSymbols_none (Hno symbols Hp)).
Qed.

(** X1. In degraded mode (the provider gives nothing jumpable) the jump
    targets are the definition headers of the text, each once and in text
    order: the result lists, by strictly increasing offset, exactly the
    offsets at which a line starts with [def ] or [class ] followed by an
    identifier, with one target for each, named by the whole identifier and
    placed at [positionAt] of the offset. No header is lost to the
    [lastIndex] of the global regular expression and none is reported
    twice. *)
Theorem fallback_targets_are_headers (document : TextDocument) :
  noJumpable document ->
  exists matches : list (N * string),
    getJumpTargets document
    = map (fun m => {| position := positionAt document (fst m);
                       targetName := snd m |}) matches
    /\ StronglySorted (fun a b => (fst a < fst b)%N) matches
    /\ forall idx w,
        In (idx, w) matches
        <-> headerAt (getText document None) (N.to_nat idx) w.
Proof.
  intros Hno. set (text := getText document None).
  exists (definitionLines text 0%N None). split; [|split].
  - rewrite (getJumpTargets_fallback Hno). unfold targetsOfText.
    now rewrite execAll_definitionLines by now left.
  - apply definitionLines_increasing.
  - intros idx w. rewrite definitionLines_In. split.
    + intros (i & -> & Hl & kw & Hm).
      apply matchHere_header in Hm as (Hkw & rest & Hd & Hrest).
      replace (N.to_nat (0 + N.of_nat i)) with i by lia.
      split; [destruct i; exact Hl|]. exists kw, rest. now split.
    + intros [Hl (kw & rest & Hkw & Hd & Hrest)].
      exists (N.to_nat idx). split; [lia|].
      split; [destruct (N.to_nat idx); exact Hl|]. exists kw.
      apply matchHere_header. split; [exact Hkw|]. now exists rest.
Qed.

(** Three headers at offsets 0, 24 and 33; the indented [def] is none. *)
Lemma fallback_targets_are_headers_witness :
  getJumpTargets Scenario.plain
  = [{| position := mkPosition 0 0; targetName := "a" |};
     {| position := mkPosition 2 0; targetName := "B" |};
     {| position := mkPosition 3 0; targetName := "c" |}]
  /\ exists matches : list (N * string),
      getJumpTargets Scenario.plain
      = map (fun m => {| position := positionAt Scenario.plain (fst m);
                         targetName := snd m |}) matches
      /\ StronglySorted (fun a b => (fst a < fst b)%N) matches
      /\ forall idx w,
          In (idx, w) matches
          <-> headerAt (getText Scenario.plain None) (N.to_nat idx) w.
Proof.
  split; [reflexivity|].
  apply (@fallback_targets_are_headers Scenario.plain).
  intros symbols H. discriminate H.
Defined.

Lemma StronglySorted_map (A B : Type) (R : A -> A -> Prop) (R' : B -> B -> Prop)
      (f : A -> B) (l : list A) :
  (forall a b, R a b -> R' (f a) (f b)) ->
  StronglySorted R l -> StronglySorted R' (map f l).
Proof.
  intros Hf. induction 1 as [|a l _ IH Ha]; cbn; constructor; [exact IH|].
  apply Forall_map. revert Ha. apply Forall_impl. intros b. apply Hf.
Qed.

(** X2. For a document whose [positionAt] never goes back as offsets grow,
    the targets of [getJumpTargets] are in ascending order of position
    whichever way they were found: sorted from the symbols, or scanned from
    the text from top to bottom. *)
Theorem getJumpTargets_always_ascending (document : TextDocument) :
  monotonePositions document -> ascending (getJumpTargets document).
Proof.
  intros Hmono.
  assert (Htext : ascending (targetsOfText document)).
  { unfold targetsOfText, ascending.
    rewrite execAll_definitionLines by now left.
    apply StronglySorted_map with (R := fun a b => (fst a < fst b)%N);
      [|apply definitionLines_increasing].
    intros a b Hab. cbn. apply Hmono. lia. }
  rewrite getJumpTargets_cases.
  destruct (executeDocumentSymbolProvider document) as [symbols|];
    [|exact Htext].
  pose proof (targetsOfSymbols_ascending symbols) as Hs.
  destruct (targetsOfSymbols symbols); [exact Htext | exact Hs].
Qed.

Lemma positionFrom_from (s : string) :
  forall k ln col, posLe (mkPosition ln col) (PlainText.positionFrom s k ln col).
Proof.
  induction s as [|c s IH]; intros [|k] ln col; cbn [PlainText.positionFrom];
    try apply posLe_refl.
  destruct (Ascii.eqb c PlainText.LF).
  - eapply posLe_trans; [|apply IH]. unfold posLe; cbn; lia.
  - eapply posLe_trans; [|apply IH]. unfold posLe; cbn; lia.
Qed.

Lemma positionFrom_monotone (s : string) :
  forall i j ln col,
    i <= j ->
    posLe (PlainText.positionFrom s i ln col) (PlainText.positionFrom s j ln col).
Proof.
  induction s as [|c s IH]; intros [|i] [|j] ln col Hij;
    cbn [PlainText.positionFrom]; try apply posLe_refl; try lia.
  - apply (positionFrom_from (String c s) (S j)).
  - destruct (Ascii.eqb c PlainText.LF); apply IH; lia.
Qed.

Lemma plainText_monotone (text : string) (symbols : option (list DocumentSymbol)) :
  monotonePositions (PlainText.textDocument text symbols).
Proof. intros i j Hij. cbn. apply positionFrom_monotone. lia. Qed.

(** Three targets found by the scan of the text, at lines 0, 2 and 3. *)
Lemma getJumpTargets_always_ascending_witness :
  map position (getJumpTargets Scenario.plain)
  = [mkPosition 0 0; mkPosition 2 0; mkPosition 3 0]
  /\ ascending (getJumpTargets Scenario.plain).
Proof.
  split; [reflexivity|].
  apply (@getJumpTargets_always_ascending Scenario.plain).
  apply plainText_monotone.
Defined.
End FallbackScan.

(** ** Targets from the symbols *)

Section ProviderTargets.
Import NavigationHandler Spec.

Lemma targetsOfSymbols_jumpables (symbols : list DocumentSymbol) :
  targetsOfSymbols symbols = JS.sort byPosition (map targetOf (jumpables symbols)).
Proof. reflexivity. Qed.

Lemma getJumpTargets_provider (document : TextDocument)
      (symbols : list DocumentSymbol) :
  executeDocumentSymbolProvider document = Some symbols ->
  hasJumpable symbols ->
  getJumpTargets document = JS.sort byPosition (map targetOf (jumpables symbols)).
Proof.
  intros Hp Hj. pose proof (targetsOfSymbols_nonempty Hj) as Hne.
  rewrite getJumpTargets_cases, Hp, <- targetsOfSymbols_jumpables.
  now destruct (targetsOfSymbols symbols).
Qed.

(** X3. On the provider path every jumpable flattened symbol gives exactly
    one target, at the start of its range and under its pretty name, and
    there is no other target: the result is a rearrangement of the targets
    of the jumpable symbols. *)
Theorem provider_targets_permutation (document : TextDocument)
        (symbols : list DocumentSymbol) :
  executeDocumentSymbolProvider document = Some symbols ->
  hasJumpable symbols ->
  Permutation (map targetOf (jumpables symbols)) (getJumpTargets document).
Proof.
  intros Hp Hj. rewrite (getJumpTargets_provider _ Hp Hj). apply sort_perm.
Qed.

Lemma provider_targets_permutation_witness :
  Permutation (map targetOf (jumpables [Scenario.A]))
    (getJumpTargets Scenario.doc).
Proof.
  apply (@provider_targets_permutation Scenario.doc [Scenario.A]).
  - reflexivity.
  - exists (spread Scenario.A []). split; [left|]; reflexivity.
Defined.

Lemma insert_keeps_position_order (p : Position) (x : JumpTarget)
      (l : list JumpTarget) :
  filter (atPosition p) (JS.insert byPosition x l)
  = filter (atPosition p) (x :: l).
Proof.
  induction l as [|y l IH]; [reflexivity|].
  cbn [JS.insert].
  destruct (Z.leb_spec (byPosition x y) 0) as [Hle|Hgt]; [reflexivity|].
  cbn [filter] in *. rewrite IH.
  destruct (atPosition p x) eqn:Hx, (atPosition p y) eqn:Hy; try reflexivity.
  exfalso. unfold atPosition in Hx, Hy. unfold byPosition in Hgt.
  apply andb_true_iff in Hx as [Hx1 Hx2]. apply andb_true_iff in Hy as [Hy1 Hy2].
  apply N.eqb_eq in Hx1, Hx2, Hy1, Hy2.
  destruct (N.eqb_spec (line (position x)) (line (position y))); lia.
Qed.

(** X4. The sort of the provider path is stable where it matters to a
    listener: targets that start at the same position stay in flattening
    order, so a symbol is met before the symbols nested in it that start
    where it starts. *)
Theorem provider_targets_stable (document : TextDocument)
        (symbols : list DocumentSymbol) (p : Position) :
  executeDocumentSymbolProvider document = Some symbols ->
  hasJumpable symbols ->
  filter (atPosition p) (getJumpTargets document)
  = filter (atPosition p) (map targetOf (jumpables symbols)).
Proof.
  intros Hp Hj. rewrite (getJumpTargets_provider _ Hp Hj).
  induction (map targetOf (jumpables symbols)) as [|x l IH]; [reflexivity|].
  cbn [JS.sort fold_right]. fold (JS.sort byPosition l).
  rewrite insert_keeps_position_order. cbn [filter]. now rewrite IH.
Qed.

(** The provider lists [late] (line 5) before the class [K] and its method
    [m], which both start at (0,0): sorting moves [late] to the end and
    leaves [K] before [K::m]. *)
Lemma provider_targets_stable_witness :
  map targetOf (jumpables [Scenario.late; Scenario.K])
  = [{| position := mkPosition 5 0; targetName := "late" |};
     {| position := mkPosition 0 0; targetName := "K" |};
     {| position := mkPosition 0 0; targetName := "K::m" |}]
  /\ filter (atPosition (mkPosition 0 0)) (getJumpTargets Scenario.shuffled)
     = [{| position := mkPosition 0 0; targetName := "K" |};
        {| position := mkPosition 0 0; targetName := "K::m" |}].
Proof.
  split; [reflexivity|].
  rewrite (@provider_targets_stable Scenario.shuffled
             [Scenario.late; Scenario.K] (mkPosition 0 0)).
  - reflexivity.
  - reflexivity.
  - exists (spread Scenario.late []). split; [left|]; reflexivity.
Defined.
End ProviderTargets.

(** ** Steps of the navigator *)

Section NavigatorSteps.
Import NavigationHandler Spec.

Lemma moveCursorToSymbol_empty (direction : string) (host : Host)
      (editor : TextEditor) :
  activeTextEditor host = Some editor ->
  getJumpTargets (document editor) = [] ->
  moveCursorToSymbol direction host = told host "No symbols found to jump to.".
Proof.
  intros Hed He. unfold moveCursorToSymbol. rewrite Hed, He.
  unfold told. now rewrite Hed.
Qed.

Lemma pickTarget_beyond (direction : string) (targets : list JumpTarget)
      (current : Position) (t : JumpTarget) :
  pickTarget direction targets current = Some t ->
  In t targets /\ beyond direction current (position t).
Proof.
  unfold pickTarget, beyond. destruct (String.eqb direction "next"); intros H;
    apply find_some in H as [Hin Ht].
  - split; [exact Hin | now apply isAfter_posLt].
  - split; [now apply in_rev | now apply isBefore_posLt].
Qed.

Lemma moveCursorToSymbol_outcome (direction : string) (host : Host)
      (editor : TextEditor) :
  activeTextEditor host = Some editor ->
  (exists t, In t (getJumpTargets (document editor))
             /\ beyond direction (active editor) (position t)
             /\ moveCursorToSymbol direction host
                 = jumped (directionWord direction) host editor t)
  \/ (exists msg, moveCursorToSymbol direction host = told host msg).
Proof.
  intros Hed.
  destruct (getJumpTargets (document editor)) as [|t0 ts] eqn:Ht.
  - right. eexists. now apply moveCursorToSymbol_empty with editor.
  - assert (Hne : getJumpTargets (document editor) <> []) by (rewrite Ht; discriminate).
    rewrite (moveCursorToSymbol_pick direction host Hed Hne), Ht.
    destruct (pickTarget direction (t0 :: ts) (active editor)) as [t|] eqn:Hp.
    + left. exists t. apply pickTarget_beyond in Hp as [Hin Hb]. now repeat split.
    + right. now eexists.
Qed.

(** X5. A navigation command, whatever its direction string, ends in one
    of four ways. Without an active editor it returns and nothing happens.
    With one, if the provider call rejects, the command rejects and nothing
    happens; otherwise it returns, having either moved the cursor to the
    position of one of the jump targets of the document, strictly forward
    for [next] and strictly backward for any other direction, or shown one
    information message and left cursor and timer alone. *)
Theorem moveCursorToSymbol_step (provider : JS.Settled) (direction : string)
        (host : Host) :
  match activeTextEditor host, provider with
  | None, _ =>
      moveCursorToSymbolAwaiting provider direction host
      = CodeParser.Returned host
  | Some _, JS.Rejected =>
      moveCursorToSymbolAwaiting provider direction host
      = CodeParser.Thrown host
  | Some editor, JS.Fulfilled =>
      (exists t, In t (getJumpTargets (document editor))
                 /\ beyond direction (active editor) (position t)
                 /\ moveCursorToSymbolAwaiting provider direction host
                     = CodeParser.Returned
                         (jumped (directionWord direction) host editor t))
      \/ (exists msg, moveCursorToSymbolAwaiting provider direction host
                       = CodeParser.Returned (told host msg))
  end.
Proof.
  unfold moveCursorToSymbolAwaiting.
  destruct (activeTextEditor host) as [editor|] eqn:Hed; [|reflexivity].
  destruct provider; [|reflexivity].
  destruct (moveCursorToSymbol_outcome direction host Hed)
    as [(t & Hin & Hb & ->)|(msg & ->)].
  - left. now exists t.
  - right. now exists msg.
Qed.

(** *** The nearest target on each side *)

Lemma posLe_antisym (p q : Position) : posLe p q -> posLe q p -> p = q.
Proof.
  destruct p as [pl pc], q as [ql qc]. unfold posLe; cbn. intros H1 H2.
  f_equal; lia.
Qed.

Lemma next_nearest (targets : list JumpTarget) (current : Position)
      (t : JumpTarget) :
  ascending targets ->
  pickTarget "next" targets current = Some t ->
  forall x, In x targets -> posLt current (position x) ->
            posLe (position t) (position x).
Proof.
  intros Hasc Hp. unfold pickTarget in Hp. cbn [String.eqb Ascii.eqb Bool.eqb] in Hp.
  destruct (find_first (fun t => isAfter (position t) current) targets)
    as [(skipped & t' & rest & Hsplit & Ht & Hs & Hf)|[Hall Hf]];
    rewrite Hf in Hp; [injection Hp as ->|discriminate].
  unfold ascending in Hasc. rewrite Hsplit in Hasc.
  destruct (sorted_around _ _ _ Hasc) as [_ Hafter].
  intros x Hx Hb. rewrite Hsplit in Hx.
  apply in_app_iff in Hx as [Hx|[<-|Hx]].
  - apply isAfter_posLt in Hb. rewrite (Hs x Hx) in Hb. discriminate.
  - apply posLe_refl.
  - rewrite Forall_forall in Hafter. now apply Hafter.
Qed.

Lemma previous_nearest (targets : list JumpTarget) (current : Position)
      (t : JumpTarget) :
  ascending targets ->
  pickTarget "previous" targets current = Some t ->
  forall x, In x targets -> posLt (position x) current ->
            posLe (position x) (position t).
Proof.
  intros Hasc Hp. unfold pickTarget in Hp. cbn [String.eqb Ascii.eqb Bool.eqb] in Hp.
  destruct (find_first (fun t => isBefore (position t) current) (rev targets))
    as [(skipped & t' & rest & Hsplit & Ht & Hs & Hf)|[Hall Hf]];
    rewrite Hf in Hp; [injection Hp as ->|discriminate].
  assert (Hrev : targets = rev rest ++ t :: rev skipped).
  { rewrite <- (rev_involutive targets), Hsplit, rev_app_distr.
    cbn [rev]. now rewrite <- app_assoc. }
  unfold ascending in Hasc. rewrite Hrev in Hasc.
  destruct (sorted_around _ _ _ Hasc) as [Hbefore _].
  intros x Hx Hb. rewrite Hrev in Hx.
  apply in_app_iff in Hx as [Hx|[<-|Hx]].
  - rewrite Forall_forall in Hbefore. now apply Hbefore.
  - apply posLe_refl.
  - apply in_rev in Hx. apply isBefore_posLt in Hb.
    rewrite (Hs x Hx) in Hb. discriminate.
Qed.

Lemma pickTarget_finds (direction : string) (targets : list JumpTarget)
      (current : Position) (x : JumpTarget) :
  In x targets -> beyond direction current (position x) ->
  exists t, pickTarget direction targets current = Some t.
Proof.
  unfold pickTarget, beyond. intros Hin Hb.
  destruct (String.eqb direction "next").
  - destruct (find _ targets) as [t|] eqn:Hf; [now exists t|].
    apply isAfter_posLt in Hb. rewrite (find_none _ _ Hf x Hin) in Hb. discriminate.
  - destruct (find _ (rev targets)) as [t|] eqn:Hf; [now exists t|].
    apply isBefore_posLt in Hb.
    rewrite (find_none _ _ Hf x (proj1 (in_rev _ _) Hin)) in Hb. discriminate.
Qed.
(** One command after the other on the same document. *)
Lemma move_twice (first second : string) (host : Host) (editor : TextEditor)
      (t : JumpTarget) :
  activeTextEditor host = Some editor ->
  getJumpTargets (document editor) <> [] ->
  pickTarget first (getJumpTargets (document editor)) (active editor) = Some t ->
  moveCursorToSymbol second (moveCursorToSymbol first host)
  = match pickTarget second (getJumpTargets (document editor)) (position t) with
    | Some u =>
        jumped (directionWord second)
          (jumped (directionWord first) host editor t)
          {| document := document editor; active := position t |} u
    | None =>
        told (jumped (directionWord first) host editor t)
          ("No " ++ directionWord second ++ " symbol.")
    end.
Proof.
  intros Hed Hne Hp.
  rewrite (moveCursorToSymbol_pick first host Hed Hne), Hp.
  exact (@moveCursorToSymbol_pick second
           (jumped (directionWord first) host editor t)
           {| document := document editor; active := position t |}
           eq_refl Hne).
Qed.

(** X6. With ascending targets and the cursor at the position of one of
    them, [next] followed by [previous] brings the cursor back to where it
    was, whenever there is a target after the cursor to go to; and likewise
    [previous] followed by [next], whenever there is a target before it. *)
Theorem next_previous_round_trip (host : Host) (editor : TextEditor) :
  activeTextEditor host = Some editor ->
  ascending (getJumpTargets (document editor)) ->
  (exists x, In x (getJumpTargets (document editor))
             /\ position x = active editor) ->
  ((exists y, In y (getJumpTargets (document editor))
              /\ posLt (active editor) (position y)) ->
   cursorOf (navigate ["next"; "previous"]%string host) = Some (active editor))
  /\ ((exists y, In y (getJumpTargets (document editor))
                 /\ posLt (position y) (active editor)) ->
      cursorOf (navigate ["previous"; "next"]%string host) = Some (active editor)).
Proof.
  intros Hed Hasc (x & Hx & Hxc).
  set (targets := getJumpTargets (document editor)) in *.
  set (current := active editor) in *.
  assert (Hne : targets <> []) by (intros E; rewrite E in Hx; exact Hx).
  split; intros (y & Hy & Hyc); unfold navigate; cbn [fold_left].
  - destruct (@pickTarget_finds "next" targets current y Hy Hyc) as (t & Ht).
    rewrite (move_twice "next" "previous" host Hed Hne Ht).
    destruct (pickTarget_beyond _ _ _ Ht) as [Htin Htb].
    change (posLt current (position t)) in Htb.
    destruct (@pickTarget_finds "previous" targets (position t) x Hx) as (u & Hu).
    { change (posLt (position x) (position t)). now rewrite Hxc. }
    fold targets. rewrite Hu. unfold cursorOf. cbn. f_equal.
    destruct (pickTarget_beyond _ _ _ Hu) as [Huin Hub].
    change (posLt (position u) (position t)) in Hub.
    apply posLe_antisym.
    + destruct (posLe_or_lt (position u) current) as [Hle|Hlt]; [exact Hle|].
      pose proof (next_nearest Hasc Ht u Huin Hlt) as Htu.
      now elim (posLt_not_le Hub).
    + rewrite <- Hxc. apply (previous_nearest Hasc Hu x Hx).
      rewrite Hxc. exact Htb.
  - destruct (@pickTarget_finds "previous" targets current y Hy Hyc) as (t & Ht).
    rewrite (move_twice "previous" "next" host Hed Hne Ht).
    destruct (pickTarget_beyond _ _ _ Ht) as [Htin Htb].
    change (posLt (position t) current) in Htb.
    destruct (@pickTarget_finds "next" targets (position t) x Hx) as (u & Hu).
    { change (posLt (position t) (position x)). now rewrite Hxc. }
    fold targets. rewrite Hu. unfold cursorOf. cbn. f_equal.
    destruct (pickTarget_beyond _ _ _ Hu) as [Huin Hub].
    change (posLt (position t) (position u)) in Hub.
    apply posLe_antisym.
    + rewrite <- Hxc. apply (next_nearest Hasc Hu x Hx).
      rewrite Hxc. exact Htb.
    + destruct (posLe_or_lt current (position u)) as [Hle|Hlt]; [exact Hle|].
      pose proof (previous_nearest Hasc Ht u Huin Hlt) as Htu.
      now elim (posLt_not_le Hub).
Qed.

Lemma next_previous_round_trip_witness :
  cursorOf (navigate ["next"; "previous"]%string
              {| activeTextEditor := Some (Scenario.editorAt 0 0);
                 lastTimeout := None; calls := [] |})
  = Some (mkPosition 0 0).
Proof.
  apply (@next_previous_round_trip
           {| activeTextEditor := Some (Scenario.editorAt 0 0);
              lastTimeout := None; calls := [] |}
           (Scenario.editorAt 0 0)).
  - reflexivity.
  - assert (E : getJumpTargets (document (Scenario.editorAt 0 0))
                = [mkJumpTarget (mkPosition 0 0) "A";
                   mkJumpTarget (mkPosition 2 2) "A::foo"]) by reflexivity.
    rewrite E. unfold ascending, posLe. repeat constructor; cbn; lia.
  - exists (mkJumpTarget (mkPosition 0 0) "A"). split; [left|]; reflexivity.
  - exists (mkJumpTarget (mkPosition 2 2) "A::foo"). split.
    + right. left. reflexivity.
    + unfold posLt; cbn; lia.
Defined.

(** *** Announcements *)

Lemma timeoutEqb_refl (t : Timeout) : timeoutEqb t t = true.
Proof. unfold timeoutEqb. now rewrite String.eqb_refl, N.eqb_refl. Qed.

Lemma pendingTimers_app (calls more : list HostCall) :
  pendingTimers (calls ++ more) = fold_left pendingAfter more (pendingTimers calls).
Proof. unfold pendingTimers. apply fold_left_app. Qed.

Lemma moveCursorToSymbol_debounced (direction : string) (host : Host) :
  debounced host -> debounced (moveCursorToSymbol direction host).
Proof.
  intros Hd. destruct (activeTextEditor host) as [editor|] eqn:Hed.
  - destruct (moveCursorToSymbol_outcome direction host Hed)
      as [(t & _ & _ & ->)|(msg & ->)];
      unfold debounced, jumped, told in *; cbn [calls lastTimeout].
    + rewrite pendingTimers_app, Hd.
      destruct (lastTimeout host) as [t0|]; cbn; [|reflexivity].
      now rewrite timeoutEqb_refl.
    + now rewrite pendingTimers_app, Hd.
  - unfold moveCursorToSymbol. now rewrite Hed.
Qed.

(** X7. Debounce: after any run of navigation commands at most one
    announcement is scheduled and not cancelled, the one of the last jump;
    every earlier one was cleared before the next was set. *)
Theorem navigate_debounced (directions : list string) (host : Host) :
  debounced host ->
  debounced (navigate directions host)
  /\ List.length (pendingTimers (calls (navigate directions host))) <= 1.
Proof.
  intros Hd.
  assert (H : debounced (navigate directions host)).
  { revert host Hd. induction directions as [|d ds IH]; intros host Hd;
      [exact Hd|].
    apply IH. now apply moveCursorToSymbol_debounced. }
  split; [exact H|]. rewrite H.
  destruct (lastTimeout (navigate directions host)); cbn; lia.
Qed.

Lemma navigate_debounced_witness :
  let host := {| activeTextEditor := Some (Scenario.editorAt 0 0);
                 lastTimeout := None; calls := [] |} in
  debounced (navigate ["next"; "previous"; "next"]%string host)
  /\ List.length
       (pendingTimers (calls (navigate ["next"; "previous"; "next"]%string host)))
     <= 1.
Proof.
  cbv zeta.
  apply (@navigate_debounced ["next"; "previous"; "next"]%string
           {| activeTextEditor := Some (Scenario.editorAt 0 0);
              lastTimeout := None; calls := [] |}).
  reflexivity.
Defined.
End NavigatorSteps.

(** ** More on the block locator *)

Section BlockLocatorMore.
Import CodeParser Spec.

Lemma detectCurrentBlock_selected (this : Selection) (editor : TextEditor) :
  detectCurrentBlock this editor
  = match selected this editor with
    | None =>
        Returned {| firstLine := firstLine this; lastLine := lastLine this;
                    cursorInSelection := false; blockType := blockType this;
                    name := name this; text := text this;
                    selectionInClass := selectionInClass this |}
    | Some e =>
        match lineAt (document editor) (line (start (range (sym e)))),
              lineAt (document editor) (line (end_ (range (sym e)))) with
        | None, _ =>
            Thrown {| firstLine := firstLine this; lastLine := lastLine this;
                      cursorInSelection := cursorInSelection this;
                      blockType := blockType this;
                      name := Vscode.name (sym e); text := text this;
                      selectionInClass := selectionInClass this |}
        | Some first, None =>
            Thrown {| firstLine := Some first; lastLine := lastLine this;
                      cursorInSelection := cursorInSelection this;
                      blockType := blockType this;
                      name := Vscode.name (sym e); text := text this;
                      selectionInClass := selectionInClass this |}
        | Some first, Some last =>
            Returned {| firstLine := Some first; lastLine := Some last;
                        cursorInSelection := cursorInSelection this;
                        blockType := blockType this;
                        name := Vscode.name (sym e);
                        text := getText (document editor) (Some (range (sym e)));
                        selectionInClass :=
                          existsb (fun p => kindEq (kind p) Class) (parents e) |}
        end
    end.
Proof.
  unfold detectCurrentBlock, selected, providedSymbols.
  destruct (containing _ _ _) as [[s ps]|]; [|reflexivity].
  cbn [sym parents].
  destruct (lineAt (document editor) (line (start (range s)))); [|reflexivity].
  now destruct (lineAt (document editor) (line (end_ (range s)))).
Qed.

(** X8. [detectCurrentBlock] throws in two cases and no other: the provider
    call rejects, and then the object is as it was before the call; or a
    block has been selected and the first or the last line of that block is
    not a line of the document (a symbol range that the text no longer
    has), and then the object is left half updated: the name is the new
    block's, while the text, the last line and [selectionInClass] are still
    those of before the call. *)
Theorem detectCurrentBlock_throws_iff (provider : JS.Settled) (this : Selection)
        (editor : TextEditor) :
  ((exists s, detectCurrentBlockAwaiting provider this editor = Thrown s)
   <-> provider = JS.Rejected
       \/ exists e,
          selected this editor = Some e
          /\ (lineAt (document editor) (line (start (range (sym e)))) = None
              \/ lineAt (document editor) (line (end_ (range (sym e)))) = None))
  /\ (forall s, detectCurrentBlockAwaiting provider this editor = Thrown s ->
                 (provider = JS.Rejected /\ s = this)
                 \/ (provider = JS.Fulfilled
                     /\ exists e, selected this editor = Some e
                                  /\ name s = Vscode.name (sym e)
                                  /\ text s = text this
                                  /\ lastLine s = lastLine this
                                  /\ selectionInClass s = selectionInClass this)).
Proof.
  destruct provider; cbn [detectCurrentBlockAwaiting].
  2:{ split.
      - split; [intros _; now left | intros _; now exists this].
      - intros s H. injection H as <-. left. now split. }
  rewrite detectCurrentBlock_selected.
  destruct (selected this editor) as [e|].
  - destruct (lineAt (document editor) (line (start (range (sym e)))))
      as [first|] eqn:Hfirst;
      [destruct (lineAt (document editor) (line (end_ (range (sym e)))))
         as [last|] eqn:Hlast|].
    + split; [split|].
      * intros (s & H). discriminate.
      * intros [E|(e' & E & H)]; [discriminate|].
        injection E as <-. destruct H; congruence.
      * intros s H. discriminate.
    + split; [split|].
      * intros _. right. exists e. split; [reflexivity | now right].
      * intros _. now eexists.
      * intros s H. injection H as <-. right. split; [reflexivity|].
        exists e. now repeat split.
    + split; [split|].
      * intros _. right. exists e. split; [reflexivity | now left].
      * intros _. now eexists.
      * intros s H. injection H as <-. right. split; [reflexivity|].
        exists e. now repeat split.
  - split; [split|].
    + intros (s & H). discriminate.
    + intros [E|(e' & E & _)]; discriminate.
    + intros s H. discriminate.
Qed.

Lemma detectCurrentBlock_flag (this : Selection) (editor : TextEditor) :
  cursorInSelection (finalState (detectCurrentBlock this editor))
  = match selected this editor with
    | Some _ => cursorInSelection this
    | None => false
    end
  /\ blockType (finalState (detectCurrentBlock this editor)) = blockType this.
Proof.
  rewrite detectCurrentBlock_selected.
  destruct (selected this editor) as [e|]; [|now split].
  destruct (lineAt (document editor) (line (start (range (sym e)))));
    [destruct (lineAt (document editor) (line (end_ (range (sym e)))))|];
    now split.
Qed.

Lemma detectEach_blockType (editors : list TextEditor) :
  forall this, blockType (detectEach editors this) = blockType this.
Proof.
  induction editors as [|ed eds IH]; intros this; [reflexivity|].
  unfold detectEach in *. cbn [fold_left]. rewrite IH.
  apply detectCurrentBlock_flag.
Qed.

Lemma detectEach_stays_false (editors : list TextEditor) :
  forall this, cursorInSelection this = false ->
               cursorInSelection (detectEach editors this) = false.
Proof.
  induction editors as [|ed eds IH]; intros this Hf; [exact Hf|].
  unfold detectEach in *. cbn [fold_left]. apply IH.
  rewrite (proj1 (detectCurrentBlock_flag this ed)), Hf.
  now destruct (selected this ed).
Qed.

(** X9. [cursorInSelection] is never set back to [true]: when a
    [Selection] object is used for several calls and the cursor is outside
    every wanted block in one of them, the flag is [false] after the last
    call, whatever the later calls find. The block type never changes. *)
Theorem cursorInSelection_sticks (before after : list TextEditor)
        (miss : TextEditor) (this : Selection) :
  selected this miss = None ->
  cursorInSelection (detectEach (before ++ miss :: after) this) = false
  /\ blockType (detectEach (before ++ miss :: after) this) = blockType this.
Proof.
  intros Hmiss. split; [|apply detectEach_blockType].
  unfold detectEach. rewrite fold_left_app. cbn [fold_left].
  apply detectEach_stays_false.
  set (s := fold_left _ before this).
  assert (Hb : blockType s = blockType this) by apply detectEach_blockType.
  rewrite (proj1 (detectCurrentBlock_flag s miss)).
  unfold selected in *. rewrite Hb, Hmiss. reflexivity.
Qed.

Lemma cursorInSelection_sticks_witness :
  cursorInSelection
    (detectEach ([] ++ Scenario.editorAt 7 0 :: [Scenario.editorAt 3 0])
       (newSelection "function")) = false
  /\ blockType
       (detectEach ([] ++ Scenario.editorAt 7 0 :: [Scenario.editorAt 3 0])
          (newSelection "function")) = "function"%string.
Proof.
  apply (@cursorInSelection_sticks [] [Scenario.editorAt 3 0]
           (Scenario.editorAt 7 0) (newSelection "function")).
  reflexivity.
Defined.
(** The selected entry is a candidate of least size. *)
Lemma selected_least (this : Selection) (editor : TextEditor) (e : FlatEntry) :
  selected this editor = Some e ->
  In e (walk (providedSymbols editor) [] [])
  /\ candidate this editor e = true
  /\ forall x, In x (walk (providedSymbols editor) [] []) ->
                candidate this editor x = true ->
                (rangeSize (range (sym e)) <= rangeSize (range (sym x)))%Z.
Proof.
  unfold selected. rewrite containing_matches.
  fold (candidate this editor).
  set (flat := walk (providedSymbols editor) [] []).
  intros Hsel.
  assert (Hne : filter (candidate this editor) flat <> [])
    by (intros E; rewrite E in Hsel; discriminate).
  destruct (sort_head_first_least (fun e => rangeSize (range (sym e))) Hne)
    as (l1 & e' & l2 & Hsplit & Hhd & Hl1 & Hl2).
  assert (E : e' = e) by congruence. subst e'.
  assert (Hin : In e (filter (candidate this editor) flat))
    by (rewrite Hsplit; apply in_elt).
  apply filter_In in Hin as [Hin Hc]. split; [exact Hin|]. split; [exact Hc|].
  intros x Hx Hcx.
  assert (Hxf : In x (filter (candidate this editor) flat))
    by (apply filter_In; now split).
  rewrite Hsplit in Hxf. apply in_app_iff in Hxf as [Hxf|[<-|Hxf]].
  - specialize (Hl1 _ Hxf). lia.
  - lia.
  - now apply Hl2.
Qed.

(** X10. Innermost means innermost: with every column below 10000, no
    other candidate's range lies inside the range of the selected block;
    a candidate nested in the selected block has the very same range. *)
Theorem selected_is_innermost (this : Selection) (editor : TextEditor)
        (e x : FlatEntry) :
  selected this editor = Some e ->
  In x (walk (providedSymbols editor) [] []) ->
  candidate this editor x = true ->
  columnsBelow 10000 (range (sym e)) ->
  columnsBelow 10000 (range (sym x)) ->
  nestedIn (range (sym x)) (range (sym e)) ->
  range (sym x) = range (sym e).
Proof.
  intros Hsel Hx Hcx Ce Cx Hn.
  destruct (selected_least _ _ Hsel) as (_ & Hce & Hleast).
  specialize (Hleast x Hx Hcx).
  unfold candidate in Hce, Hcx.
  apply andb_true_iff in Hce as [Hre _]. apply andb_true_iff in Hcx as [Hrx _].
  revert Hleast Hre Hrx Ce Cx Hn.
  generalize (range (sym e)) as re, (range (sym x)) as rx.
  intros [[esl esc] [eel eec]] [[xsl xsc] [xel xec]].
  unfold rangeSize, inRange, columnsBelow, nestedIn, posLe; cbn.
  intros Hleast Hre Hrx [Ce1 Ce2] [Cx1 Cx2] [Hs He].
  assert (xsl = esl /\ xsc = esc /\ xel = eel /\ xec = eec) as (-> & -> & -> & ->);
    [|reflexivity].
  destruct (N.ltb_spec (line (active editor)) esl);
    destruct (N.ltb_spec eel (line (active editor)));
    destruct (N.eqb_spec (line (active editor)) esl);
    destruct (N.eqb_spec (line (active editor)) eel);
    destruct (N.ltb_spec (character (active editor)) esc);
    destruct (N.ltb_spec eec (character (active editor)));
    cbn in Hre; try discriminate;
    destruct (N.ltb_spec (line (active editor)) xsl);
    destruct (N.ltb_spec xel (line (active editor)));
    destruct (N.eqb_spec (line (active editor)) xsl);
    destruct (N.eqb_spec (line (active editor)) xel);
    destruct (N.ltb_spec (character (active editor)) xsc);
    destruct (N.ltb_spec xec (character (active editor)));
    cbn in Hrx; try discriminate; lia.
Qed.

(** Cursor at (3,0) in the three nested blocks: [f] is selected, and the
    method [g], another candidate nested in [f], has the range of [f]. *)
Lemma selected_is_innermost_witness :
  selected (newSelection "function") (Scenario.nestedEditorAt 3 0)
  = Some (mkFlatEntry Scenario.f [Scenario.top])
  /\ mkFlatEntry Scenario.g [Scenario.top; Scenario.f]
     <> mkFlatEntry Scenario.f [Scenario.top]
  /\ range Scenario.g = range Scenario.f.
Proof.
  split; [reflexivity|]. split; [discriminate|].
  apply (@selected_is_innermost (newSelection "function")
           (Scenario.nestedEditorAt 3 0)
           (mkFlatEntry Scenario.f [Scenario.top])
           (mkFlatEntry Scenario.g [Scenario.top; Scenario.f])).
  - reflexivity.
  - right. right. left. reflexivity.
  - reflexivity.
  - unfold columnsBelow; cbn; lia.
  - unfold columnsBelow; cbn; lia.
  - unfold nestedIn, posLe; cbn; lia.
Defined.

Lemma Forall2_In_right (A B : Type) (R : A -> B -> Prop) (l : list A)
      (l' : list B) (y : B) :
  Forall2 R l l' -> In y l' -> exists x, In x l /\ R x y.
Proof.
  induction 1 as [|a b l l' Hab _ IH]; intros Hin; [elim Hin|].
  destruct Hin as [<-|Hin].
  - exists a. split; [now left | exact Hab].
  - destruct (IH Hin) as (x & Hx & Hr). exists x. split; [now right | exact Hr].
Qed.

(** Every entry of [walk] is a node of the forest with its ancestors. *)
Lemma walk_entry_address (roots : list DocumentSymbol) (e : FlatEntry) :
  In e (walk roots [] []) ->
  exists path, nodeAt roots path = Some (sym e)
               /\ ancestorsAt roots path = parents e.
Proof.
  intros Hin.
  assert (F : Forall (fun c => forall par,
              Forall2 (fun p e => descend c p = Some (sym e)
                                  /\ par ++ chain c p = parents e)
                (pathsBelow c) (walkSymbol par c [])) roots)
    by (apply Forall_forall; intros s _; apply pathsBelow_listing).
  pose proof (numbered_listing F [] []) as L. cbn [app List.length] in L.
  destruct (@Forall2_In_right _ _ _ _ _ e L Hin) as (p & _ & Hn & Ha).
  exists p. split; [exact Hn | exact Ha].
Qed.

(** X11. After a call that returns with a block selected, [selectionInClass]
    says whether the block sits in a class of the symbol tree: it is [true]
    exactly when one of the symbols above the selected node, on the way
    down from its root, is of kind [Class]. *)
Theorem selectionInClass_ancestor (this : Selection) (editor : TextEditor)
        (e : FlatEntry) (s : Selection) :
  selected this editor = Some e ->
  detectCurrentBlock this editor = Returned s ->
  exists path,
    nodeAt (providedSymbols editor) path = Some (sym e)
    /\ name s = Vscode.name (sym e)
    /\ (selectionInClass s = true
        <-> exists a, In a (ancestorsAt (providedSymbols editor) path)
                      /\ kind a = Class).
Proof.
  intros Hsel Hret.
  destruct (selected_least _ _ Hsel) as (Hin & _ & _).
  destruct (walk_entry_address _ _ Hin) as (path & Hn & Ha).
  exists path. split; [exact Hn|].
  rewrite detectCurrentBlock_selected, Hsel in Hret.
  destruct (lineAt (document editor) (line (start (range (sym e)))));
    [destruct (lineAt (document editor) (line (end_ (range (sym e)))))|];
    try discriminate.
  injection Hret as <-. cbn [name selectionInClass]. split; [reflexivity|].
  rewrite Ha, existsb_exists. split; intros (a & Hain & Hk); exists a;
    (split; [exact Hain|]); now apply kindEq_eq.
Qed.

Lemma selectionInClass_ancestor_witness :
  exists path,
    nodeAt (providedSymbols (Scenario.editorAt 3 0)) path = Some Scenario.foo.
Proof.
  destruct (@selectionInClass_ancestor (newSelection "function")
              (Scenario.editorAt 3 0)
              (mkFlatEntry Scenario.foo [Scenario.A])
              (finalState (detectCurrentBlock (newSelection "function")
                             (Scenario.editorAt 3 0))))
    as (path & Hn & _).
  - reflexivity.
  - reflexivity.
  - exists path. exact Hn.
Defined.

(** X12. Containment follows nesting: a position inside a range is inside
    every range the first is nested in. *)
Theorem inRange_nested (pos : Position) (inner outer : Range) :
  inRange pos inner = true -> nestedIn inner outer ->
  inRange pos outer = true.
Proof.
  destruct inner as [[isl isc] [iel iec]], outer as [[osl osc] [oel oec]].
  unfold inRange, nestedIn, posLe; cbn. intros Hin [Hs He].
  destruct (N.ltb_spec (line pos) isl);
    destruct (N.ltb_spec iel (line pos));
    destruct (N.eqb_spec (line pos) isl);
    destruct (N.eqb_spec (line pos) iel);
    destruct (N.ltb_spec (character pos) isc);
    destruct (N.ltb_spec iec (character pos));
    cbn in Hin; try discriminate;
    destruct (N.ltb_spec (line pos) osl);
    destruct (N.ltb_spec oel (line pos));
    destruct (N.eqb_spec (line pos) osl);
    destruct (N.eqb_spec (line pos) oel);
    destruct (N.ltb_spec (character pos) osc);
    destruct (N.ltb_spec oec (character pos));
    cbn; try reflexivity; lia.
Qed.

Lemma inRange_nested_witness :
  inRange (mkPosition 3 0) (range Scenario.A) = true.
Proof.
  apply (@inRange_nested (mkPosition 3 0) (range Scenario.foo) (range Scenario.A)).
  - reflexivity.
  - unfold nestedIn, posLe; cbn; lia.
Defined.
End BlockLocatorMore.

(** ** More on display names *)

Section Breadcrumbs.
Import NavigationHandler Spec.

Lemma prettyName_displayName_witness :
  prettyName (spread Scenario.foo [Scenario.A])
  = displayName (map Vscode.name [Scenario.A]) (Vscode.name Scenario.foo).
Proof.
  apply (@prettyName_displayName (spread Scenario.foo [Scenario.A])).
  right. cbn. discriminate.
Defined.

Lemma string_append_assoc (a b c : string) :
  ((a ++ b) ++ c)%string = (a ++ b ++ c)%string.
Proof. induction a as [|x a IH]; cbn; [reflexivity | now rewrite IH]. Qed.

Lemma join_snoc (sep x : string) (l : list string) :
  l <> [] -> JS.join sep (l ++ [x]) = (JS.join sep l ++ sep ++ x)%string.
Proof.
  induction l as [|a l IH]; intros Hne; [now elim Hne|].
  destruct l as [|b l]; [reflexivity|].
  change (JS.join sep ((a :: b :: l) ++ [x]))
    with (a ++ sep ++ JS.join sep ((b :: l) ++ [x]))%string.
  rewrite IH by discriminate.
  change (JS.join sep (a :: b :: l)) with (a ++ sep ++ JS.join sep (b :: l))%string.
  now rewrite !string_append_assoc.
Qed.

Lemma join_truthy (sep : string) (chain : list string) :
  chain <> [] -> Forall (fun seg => JS.truthy seg = true) chain ->
  JS.truthy (JS.join sep chain) = true.
Proof.
  intros Hne H. destruct H as [|x l Hx _]; [congruence|].
  now apply join_truthy_head.
Qed.

(** X14. The breadcrumb of a symbol extends the breadcrumb of its parent:
    for a symbol flattened under the ancestors of its parent followed by
    the parent, both names not blank, the pretty name is the parent's
    pretty name, the separator [::] and the symbol's trimmed name. *)
Theorem prettyName_extends_parent (s p : DocumentSymbol)
        (ancestors : list DocumentSymbol) :
  JS.trim (Vscode.name p) <> EmptyString ->
  JS.trim (Vscode.name s) <> EmptyString ->
  prettyName (spread s (ancestors ++ [p]))
  = (prettyName (spread p ancestors) ++ "::" ++ JS.trim (Vscode.name s))%string.
Proof.
  intros Hp Hs.
  assert (Tp : JS.truthy (JS.trim (Vscode.name p)) = true)
    by now apply truthy_nonempty.
  assert (Np : JS.truthy (Vscode.name p) = true).
  { apply truthy_nonempty. intros E. apply Hp. now rewrite E. }
  assert (Ns : JS.truthy (Vscode.name s) = true).
  { apply truthy_nonempty. intros E. apply Hs. now rewrite E. }
  unfold prettyName. destruct s as [sn sk sr sc], p as [pn pk pr pc].
  cbn [spread name parent Vscode.name] in *.
  rewrite map_app, filter_app. cbn [map filter Vscode.name].
  rewrite Tp, Np, Ns.
  set (P := filter JS.truthy (map (fun q => JS.trim (Vscode.name q)) ancestors)).
  assert (HP : Forall (fun seg => JS.truthy seg = true) (P ++ [JS.trim pn])).
  { apply Forall_app. split; [apply filter_truthy_all | now constructor]. }
  assert (Hne : P ++ [JS.trim pn] <> []) by now destruct P.
  rewrite join_snoc by exact Hne.
  rewrite (join_truthy "::" Hne HP).
  assert (T : JS.truthy (JS.join "::" (P ++ [JS.trim pn]) ++ "::" ++ JS.trim sn)
              = true).
  { destruct (JS.join "::" (P ++ [JS.trim pn])) eqn:E; [|reflexivity].
    pose proof (join_truthy "::" Hne HP) as J. rewrite E in J. discriminate. }
  now rewrite T.
Qed.

Lemma prettyName_extends_parent_witness :
  prettyName (spread Scenario.foo ([] ++ [Scenario.A]))
  = (prettyName (spread Scenario.A []) ++ "::" ++ JS.trim "foo")%string.
Proof.
  apply (@prettyName_extends_parent Scenario.foo Scenario.A []).
  - cbn. discriminate.
  - cbn. discriminate.
Defined.
End Breadcrumbs.

(** ** The function search of the file connector *)

Section FunctionSearch.
Import FileConnector Spec.

Lemma firstReturn_some (A B : Type) (body : A -> option B) (l : list A) (r : B) :
  firstReturn body l = Some r ->
  exists i a, nth_error l i = Some a /\ body a = Some r.
Proof.
  induction l as [|a l IH]; cbn; [discriminate|].
  destruct (body a) as [r'|] eqn:Ha.
  - intros E. injection E as <-. now exists 0, a.
  - intros H. destruct (IH H) as (i & b & Hi & Hb). now exists (S i), b.
Qed.

Lemma firstReturn_returns (A B : Type) (body : A -> option B) (l : list A)
      (i : nat) (a : A) :
  nth_error l i = Some a -> body a <> None -> firstReturn body l <> None.
Proof.
  revert i. induction l as [|b l IH]; intros [|i]; cbn; try discriminate.
  - intros E. injection E as ->. intros Ha. now destruct (body a).
  - intros Hi Ha. destruct (body b); [discriminate | now apply IH with i].
Qed.

Lemma visit_children (position : Position) (s : DocumentSymbol) :
  visit position s
  = if contains (range s) position then
      if kindEq (kind s) Function then
        Some (match findFunctionAtPosition (children s) position with
              | Some r => r
              | None => s
              end)
      else findFunctionAtPosition (children s) position
    else None.
Proof. destruct s; reflexivity. Qed.

Lemma visit_sound (position : Position) (s : DocumentSymbol) :
  forall r, visit position s = Some r ->
            kind r = Function
            /\ contains (range r) position = true
            /\ findFunctionAtPosition (children r) position = None
            /\ exists path, descend s path = Some r
                            /\ allContain position (chain s path).
Proof.
  induction s as [n k rg cs IH] using DocumentSymbol_children_ind.
  intros r. rewrite visit_children. cbn [range kind children].
  destruct (contains rg position) eqn:Hc; [|discriminate].
  assert (Below : forall r', findFunctionAtPosition cs position = Some r' ->
            kind r' = Function /\ contains (range r') position = true
            /\ findFunctionAtPosition (children r') position = None
            /\ exists path, descend (mkSymbol n k rg cs) path = Some r'
                            /\ allContain position (chain (mkSymbol n k rg cs) path)).
  { intros r' Hr'. apply firstReturn_some in Hr' as (i & c & Hi & Hv).
    rewrite Forall_forall in IH.
    destruct (IH c (nth_error_In _ _ Hi) r' Hv) as (Hk & Hcr & Hsp & path & Hd & Ha).
    repeat split; try assumption. exists (i :: path). cbn [descend chain children].
    rewrite Hi. split; [exact Hd|]. now constructor. }
  destruct (kindEq k Function) eqn:Hk.
  - destruct (findFunctionAtPosition cs position) as [r'|] eqn:Hf;
      intros E; injection E as <-.
    + now apply Below.
    + repeat split; [now apply kindEq_eq | exact Hc | exact Hf|].
      exists []. split; [reflexivity | constructor].
  - apply Below.
Qed.

Lemma search_sound (symbols : list DocumentSymbol) (position : Position)
      (r : DocumentSymbol) :
  findFunctionAtPosition symbols position = Some r ->
  kind r = Function
  /\ contains (range r) position = true
  /\ findFunctionAtPosition (children r) position = None
  /\ exists path, nodeAt symbols path = Some r
                  /\ allContain position (ancestorsAt symbols path).
Proof.
  intros H. apply firstReturn_some in H as (i & c & Hi & Hv).
  destruct (@visit_sound position c r Hv) as (Hk & Hc & Hs & path & Hd & Ha).
  repeat split; try assumption. exists (i :: path). cbn. now rewrite Hi.
Qed.

(** X15. What [findFunctionAtPosition] returns is a symbol of the forest, of
    kind [Function] (never a method or a class), whose range and the ranges
    of all symbols above it hold the position; and it is the most specific
    such symbol: searching its own children finds nothing. *)
Theorem findFunctionAtPosition_sound (symbols : list DocumentSymbol)
        (position : Position) (r : DocumentSymbol) :
  findFunctionAtPosition symbols position = Some r ->
  kind r = Function
  /\ contains (range r) position = true
  /\ findFunctionAtPosition (children r) position = None
  /\ exists path, nodeAt symbols path = Some r
                  /\ allContain position (ancestorsAt symbols path).
Proof. apply search_sound. Qed.

Lemma findFunctionAtPosition_sound_witness :
  kind Scenario.inner = Function
  /\ contains (range Scenario.inner) (mkPosition 3 0) = true
  /\ findFunctionAtPosition (children Scenario.inner) (mkPosition 3 0) = None
  /\ exists path,
      nodeAt [Scenario.outer] path = Some Scenario.inner
      /\ allContain (mkPosition 3 0) (ancestorsAt [Scenario.outer] path).
Proof.
  apply (@findFunctionAtPosition_sound [Scenario.outer] (mkPosition 3 0)
           Scenario.inner).
  reflexivity.
Defined.

Lemma visit_complete (position : Position) (s : DocumentSymbol) :
  forall path f,
    descend s path = Some f ->
    kind f = Function ->
    contains (range f) position = true ->
    allContain position (chain s path) ->
    visit position s <> None.
Proof.
  induction s as [n k rg cs IH] using DocumentSymbol_children_ind.
  intros path f Hd Hk Hc Ha. rewrite visit_children. cbn [range kind children].
  destruct path as [|i rest].
  - injection Hd as <-. cbn in Hk, Hc. rewrite Hc.
    apply kindEq_eq in Hk. rewrite Hk. discriminate.
  - cbn [descend chain children] in Hd, Ha.
    inversion Ha as [|a l Hs Hrest]; subst. cbn in Hs. rewrite Hs.
    destruct (nth_error cs i) as [c|] eqn:Hi; [|discriminate].
    assert (Hf : findFunctionAtPosition cs position <> None).
    { apply firstReturn_returns with i c; [exact Hi|].
      rewrite Forall_forall in IH.
      now apply (IH c (nth_error_In _ _ Hi) rest f). }
    destruct (kindEq k Function); [discriminate | exact Hf].
Qed.

(** X16. [findFunctionAtPosition] finds a function exactly when there is
    one to find along ranges that hold the position: it returns a symbol
    if, and only if, the forest has a symbol of kind [Function] whose own
    range and the ranges of all symbols above it hold the position. *)
Theorem findFunctionAtPosition_finds_iff (symbols : list DocumentSymbol)
        (position : Position) :
  findFunctionAtPosition symbols position <> None
  <-> exists path f,
      nodeAt symbols path = Some f
      /\ kind f = Function
      /\ contains (range f) position = true
      /\ allContain position (ancestorsAt symbols path).
Proof.
  split.
  - destruct (findFunctionAtPosition symbols position) as [r|] eqn:H;
      [intros _|intros E; now elim E].
    destruct (search_sound _ _ H) as (Hk & Hc & _ & path & Hn & Ha).
    now exists path, r.
  - intros ([|i rest] & f & Hn & Hk & Hc & Ha); [discriminate|].
    cbn [nodeAt ancestorsAt] in Hn, Ha.
    destruct (nth_error symbols i) as [s|] eqn:Hi; [|discriminate].
    apply firstReturn_returns with i s; [exact Hi|].
    now apply visit_complete with rest f.
Qed.
(** The editor's [Range.contains] and the [inRange] of codeParser.js are
    the same test. *)
Lemma contains_inRange (r : Range) (p : Position) :
  contains r p = CodeParser.inRange p r.
Proof.
  unfold contains, CodeParser.inRange, isBefore.
  destruct (N.ltb_spec (line p) (line (start r)));
    destruct (N.ltb_spec (line (end_ r)) (line p));
    destruct (N.eqb_spec (line p) (line (start r)));
    destruct (N.eqb_spec (line (end_ r)) (line p));
    destruct (N.eqb_spec (line p) (line (end_ r)));
    destruct (N.ltb_spec (character p) (character (start r)));
    destruct (N.ltb_spec (character (end_ r)) (character p));
    cbn; try reflexivity; lia.
Qed.

Lemma Forall2_In_left (A B : Type) (R : A -> B -> Prop) (l : list A)
      (l' : list B) (x : A) :
  Forall2 R l l' -> In x l -> exists y, In y l' /\ R x y.
Proof.
  induction 1 as [|a b l l' Hab _ IH]; intros Hin; [elim Hin|].
  destruct Hin as [<-|Hin].
  - exists b. split; [now left | exact Hab].
  - destruct (IH Hin) as (y & Hy & Hr). exists y. split; [now right | exact Hr].
Qed.

(** Every node of the forest is an entry of [walk]. *)
Lemma node_in_walk (roots : list DocumentSymbol) (path : list nat)
      (r : DocumentSymbol) :
  nodeAt roots path = Some r ->
  exists e, In e (CodeParser.walk roots [] []) /\ CodeParser.sym e = r.
Proof.
  intros Hn.
  assert (C : Forall (fun c => forall p, In p (pathsBelow c) <-> descend c p <> None)
                roots)
    by (apply Forall_forall; intros s _; apply pathsBelow_complete).
  assert (Hin : In path (numbered pathsBelow roots 0)).
  { apply (numbered_complete C [] path). cbn [app List.length].
    destruct path as [|i rest]; [discriminate|].
    exists i, rest. split; [reflexivity|]. split; [lia|]. now rewrite Hn. }
  assert (F : Forall (fun c => forall par,
              Forall2 (fun p e => descend c p = Some (CodeParser.sym e)
                                  /\ par ++ chain c p = CodeParser.parents e)
                (pathsBelow c) (CodeParser.walkSymbol par c [])) roots)
    by (apply Forall_forall; intros s _; apply pathsBelow_listing).
  pose proof (numbered_listing F [] []) as L. cbn [app List.length] in L.
  destruct (@Forall2_In_left _ _ _ _ _ path L Hin) as (e & He & Hne & _).
  exists e. split; [exact He | congruence].
Qed.

(** X17. The file connector and the summarizer agree on functions: when
    [findFunctionAtPosition] finds a function at the cursor in the symbols
    of the provider, [detectCurrentBlock] for a block type other than
    [class] selects a block as well, and one that is not larger than the
    function found. *)
Theorem function_found_block_selected (this : CodeParser.Selection)
        (editor : TextEditor) (r : DocumentSymbol) :
  String.eqb (CodeParser.blockType this) "class" = false ->
  findFunctionAtPosition (providedSymbols editor) (active editor) = Some r ->
  exists e, selected this editor = Some e
            /\ (CodeParser.rangeSize (range (CodeParser.sym e))
                <= CodeParser.rangeSize (range r))%Z.
Proof.
  intros Hbt Hfind.
  destruct (search_sound _ _ Hfind) as (Hk & Hc & _ & path & Hn & _).
  destruct (node_in_walk _ _ Hn) as (e0 & Hin0 & Hs0).
  assert (Hc0 : candidate this editor e0 = true).
  { unfold candidate, CodeParser.wantKindOf. rewrite Hbt, Hs0, Hk.
    now rewrite <- contains_inRange, Hc. }
  assert (Hne : filter (candidate this editor)
                  (CodeParser.walk (providedSymbols editor) [] []) <> []).
  { intros E.
    assert (Hf : In e0 (filter (candidate this editor)
                          (CodeParser.walk (providedSymbols editor) [] [])))
      by (apply filter_In; now split).
    rewrite E in Hf. exact Hf. }
  destruct (sort_head_first_least
              (fun e => CodeParser.rangeSize (range (CodeParser.sym e))) Hne)
    as (l1 & e & l2 & _ & Hhd & _).
  assert (Hsel : selected this editor = Some e).
  { unfold selected. rewrite containing_matches. exact Hhd. }
  exists e. split; [exact Hsel|].
  destruct (selected_least _ _ Hsel) as (_ & _ & Hleast).
  rewrite <- Hs0. now apply Hleast.
Qed.

Lemma function_found_block_selected_witness :
  exists e,
    selected (CodeParser.newSelection "function")
      {| document := PlainText.textDocument Scenario.source (Some [Scenario.outer]);
         active := mkPosition 3 0 |} = Some e
    /\ (CodeParser.rangeSize (range (CodeParser.sym e))
        <= CodeParser.rangeSize (range Scenario.inner))%Z.
Proof.
  apply (@function_found_block_selected (CodeParser.newSelection "function")
           {| document := PlainText.textDocument Scenario.source
                            (Some [Scenario.outer]);
              active := mkPosition 3 0 |}
           Scenario.inner).
  - reflexivity.
  - reflexivity.
Defined.
End FunctionSearch.

(** ** The file navigator *)

Section FileCycle.
Import FileNavigator Spec.

Variable ws : Workspace.
Variable folder : Uri.
Variable folders : list Uri.
Hypothesis workspace_open : workspaceFolders ws = Some (folder :: folders).
Hypothesis some_file : findFiles ws <> [].

Let count : N := N.of_nat (List.length (findFiles ws)).

Lemma count_positive : (0 < count)%N.
Proof.
  unfold count. destruct (findFiles ws); [now elim some_file | cbn; lia].
Qed.

Lemma navigateToNextFile_opens (st : State) :
  exists file,
    nth_error (findFiles ws) (N.to_nat ((currentFileIndex st + 1) mod count))
    = Some file
    /\ navigateToNextFile ws st
       = match opening ws file with
         | OpenRejects =>
             Rejected {| currentFileIndex := (currentFileIndex st + 1) mod count;
                         calls := calls st ++ [OpenTextDocument file] |}
         | ShowRejects =>
             Rejected {| currentFileIndex := (currentFileIndex st + 1) mod count;
                         calls := calls st
                                  ++ [OpenTextDocument file;
                                      ShowTextDocument file] |}
         | Opens =>
             afterSpeaking ws
               {| currentFileIndex := (currentFileIndex st + 1) mod count;
                  calls := calls st
                           ++ [OpenTextDocument file; ShowTextDocument file;
                               ShowInformationMessage
                                 ("Navigated to file: " ++ fileNameOf file);
                               SpeakMessage
                                 ("Navigated to file: " ++ fileNameOf file)] |}
         end.
Proof.
  pose proof count_positive as Hpos.
  assert (Hlt : ((currentFileIndex st + 1) mod count < count)%N)
    by (apply N.mod_lt; lia).
  destruct (nth_error (findFiles ws)
              (N.to_nat ((currentFileIndex st + 1) mod count))) as [file|] eqn:Hn.
  - exists file. split; [reflexivity|].
    unfold navigateToNextFile. rewrite workspace_open. fold count.
    destruct (N.eqb_spec count 0) as [E|_]; [lia|]. now rewrite Hn.
  - apply nth_error_None in Hn. unfold count in *. lia.
Qed.

Lemma navigateToNextFile_index (st : State) :
  currentFileIndex (stateOf (navigateToNextFile ws st))
  = ((currentFileIndex st + 1) mod count)%N.
Proof.
  destruct (navigateToNextFile_opens st) as (file & _ & ->).
  unfold afterSpeaking.
  destruct (opening ws file); [destruct (speaking ws)| |]; reflexivity.
Qed.

Lemma navigateTimes_index (k : nat) :
  forall st,
    currentFileIndex (navigateTimes k ws st)
    = if Nat.eqb k 0 then currentFileIndex st
      else ((currentFileIndex st + N.of_nat k) mod count)%N.
Proof.
  pose proof count_positive as Hpos.
  induction k as [|k IH]; intros st; [reflexivity|].
  cbn [navigateTimes Nat.eqb]. rewrite IH, navigateToNextFile_index.
  destruct k as [|k]; cbn [Nat.eqb].
  - reflexivity.
  - rewrite N.Div0.add_mod_idemp_l. f_equal. lia.
Qed.
End FileCycle.

(** X18. With a workspace folder open and a file list that is not empty
    and does not change, the file navigator goes round the list: after [k]
    commands ([k] at least 1) the index is the old index plus [k] modulo the
    number of files, hence inside the list, and from an index inside the
    list as many commands as there are files lead back to the same file. *)
Theorem navigateToNextFile_cycles (ws : FileNavigator.Workspace)
        (folder : FileNavigator.Uri) (folders : list FileNavigator.Uri)
        (st : FileNavigator.State) (k : nat) :
  FileNavigator.workspaceFolders ws = Some (folder :: folders) ->
  FileNavigator.findFiles ws <> [] ->
  let count := N.of_nat (List.length (FileNavigator.findFiles ws)) in
  (0 < k ->
   FileNavigator.currentFileIndex (FileNavigator.navigateTimes k ws st)
   = ((FileNavigator.currentFileIndex st + N.of_nat k) mod count)%N
   /\ (FileNavigator.currentFileIndex (FileNavigator.navigateTimes k ws st)
       < count)%N)
  /\ ((FileNavigator.currentFileIndex st < count)%N ->
      FileNavigator.currentFileIndex
        (FileNavigator.navigateTimes
           (List.length (FileNavigator.findFiles ws)) ws st)
      = FileNavigator.currentFileIndex st).
Proof.
  intros Hopen Hfiles count.
  pose proof (@count_positive ws Hfiles) as Hpos. fold count in Hpos.
  split.
  - intros Hk. rewrite (@navigateTimes_index ws folder folders Hopen Hfiles).
    destruct k; [lia|]. cbn [Nat.eqb]. fold count.
    split; [reflexivity | apply N.mod_lt; lia].
  - intros Hin. rewrite (@navigateTimes_index ws folder folders Hopen Hfiles).
    assert (Hl : Nat.eqb (List.length (FileNavigator.findFiles ws)) 0 = false)
      by (destruct (FileNavigator.findFiles ws); [congruence | reflexivity]).
    rewrite Hl. fold count.
    replace (FileNavigator.currentFileIndex st + count)%N
      with (FileNavigator.currentFileIndex st + 1 * count)%N by lia.
    rewrite N.Div0.mod_add. now apply N.mod_small.
Qed.

Lemma navigateToNextFile_cycles_witness :
  let ws := FileNavigator.mkWorkspace
              (Some [FileNavigator.mkUri "/w"])
              [FileNavigator.mkUri "/w/a.py"; FileNavigator.mkUri "/w/b.py";
               FileNavigator.mkUri "/w/c.py"]
              (fun _ => FileNavigator.Opens) JS.Fulfilled in
  FileNavigator.currentFileIndex
    (FileNavigator.navigateTimes 3 ws (FileNavigator.mkState 2 [])) = 2%N.
Proof.
  cbv zeta.
  apply (@navigateToNextFile_cycles
           (FileNavigator.mkWorkspace
              (Some [FileNavigator.mkUri "/w"])
              [FileNavigator.mkUri "/w/a.py"; FileNavigator.mkUri "/w/b.py";
               FileNavigator.mkUri "/w/c.py"]
              (fun _ => FileNavigator.Opens) JS.Fulfilled)
           (FileNavigator.mkUri "/w") [] (FileNavigator.mkState 2 []) 3).
  - reflexivity.
  - discriminate.
  - cbn. lia.
Defined.

(** X19. With a workspace folder open and at least one file found, the
    command never reads outside the list: the file it goes for is the one
    at the new index, a file of the list, and the index is stored before
    the file is opened. What follows depends on the editor: if
    [openTextDocument] rejects, the command rejects after that one call; if
    [showTextDocument] rejects, after these two; otherwise the file is
    shown and its name announced by message and by speech. Counting starts
    one too far: from the initial index 0 and a list of two or more files
    the file gone for is the second of the list, not the first. *)
Theorem navigateToNextFile_opens_listed (ws : FileNavigator.Workspace)
        (folder : FileNavigator.Uri) (folders : list FileNavigator.Uri)
        (st : FileNavigator.State) :
  FileNavigator.workspaceFolders ws = Some (folder :: folders) ->
  FileNavigator.findFiles ws <> [] ->
  let index :=
    ((FileNavigator.currentFileIndex st + 1)
       mod N.of_nat (List.length (FileNavigator.findFiles ws)))%N in
  exists file,
    nth_error (FileNavigator.findFiles ws) (N.to_nat index) = Some file
    /\ In file (FileNavigator.findFiles ws)
    /\ FileNavigator.navigateToNextFile ws st
       = match FileNavigator.opening ws file with
         | FileNavigator.OpenRejects =>
             FileNavigator.Rejected
               {| FileNavigator.currentFileIndex := index;
                  FileNavigator.calls :=
                    FileNavigator.calls st
                    ++ [FileNavigator.OpenTextDocument file] |}
         | FileNavigator.ShowRejects =>
             FileNavigator.Rejected
               {| FileNavigator.currentFileIndex := index;
                  FileNavigator.calls :=
                    FileNavigator.calls st
                    ++ [FileNavigator.OpenTextDocument file;
                        FileNavigator.ShowTextDocument file] |}
         | FileNavigator.Opens =>
             (match FileNavigator.speaking ws with
              | JS.Fulfilled => FileNavigator.Done
              | JS.Rejected => FileNavigator.Rejected
              end)
               {| FileNavigator.currentFileIndex := index;
                  FileNavigator.calls :=
                    FileNavigator.calls st
                    ++ [FileNavigator.OpenTextDocument file;
                        FileNavigator.ShowTextDocument file;
                        FileNavigator.ShowInformationMessage
                          ("Navigated to file: " ++ FileNavigator.fileNameOf file);
                        FileNavigator.SpeakMessage
                          ("Navigated to file: " ++ FileNavigator.fileNameOf file)] |}
         end
    /\ (FileNavigator.currentFileIndex st = 0%N ->
        forall first second others,
          FileNavigator.findFiles ws = first :: second :: others ->
          file = second).
Proof.
  intros Hopen Hfiles index.
  destruct (@navigateToNextFile_opens ws folder folders Hopen Hfiles st)
    as (file & Hn & Hrun).
  exists file. split; [exact Hn|]. split; [now apply nth_error_In in Hn|].
  split.
  - rewrite Hrun. unfold FileNavigator.afterSpeaking.
    destruct (FileNavigator.opening ws file); try reflexivity.
    now destruct (FileNavigator.speaking ws).
  - intros Hz first second others E. rewrite Hz, E in Hn.
    cbn [List.length] in Hn.
    replace (N.to_nat ((0 + 1) mod N.of_nat (S (S (List.length others))))) with 1
      in Hn.
    + cbn in Hn. congruence.
    + rewrite N.mod_small by lia. reflexivity.
Qed.

(** Two files, of which the second cannot be opened: from index 0 the
    command goes for the second, stores index 1 and rejects after the one
    call. *)
Lemma navigateToNextFile_opens_listed_witness :
  let ws := FileNavigator.mkWorkspace (Some [FileNavigator.mkUri "/w"])
              [FileNavigator.mkUri "/w/a.py"; FileNavigator.mkUri "/w/b.bin"]
              (fun file =>
                 if String.eqb (FileNavigator.path file) "/w/b.bin"
                 then FileNavigator.OpenRejects else FileNavigator.Opens)
              JS.Fulfilled in
  FileNavigator.navigateToNextFile ws (FileNavigator.mkState 0 [])
  = FileNavigator.Rejected
      (FileNavigator.mkState 1
         [FileNavigator.OpenTextDocument (FileNavigator.mkUri "/w/b.bin")]).
Proof.
  cbv zeta.
  destruct (@navigateToNextFile_opens_listed
              (FileNavigator.mkWorkspace (Some [FileNavigator.mkUri "/w"])
                 [FileNavigator.mkUri "/w/a.py"; FileNavigator.mkUri "/w/b.bin"]
                 (fun file =>
                    if String.eqb (FileNavigator.path file) "/w/b.bin"
                    then FileNavigator.OpenRejects else FileNavigator.Opens)
                 JS.Fulfilled)
              (FileNavigator.mkUri "/w") [] (FileNavigator.mkState 0 []))
    as (file & Hn & _ & Hrun & _).
  - reflexivity.
  - discriminate.
  - cbn in Hn. injection Hn as <-. exact Hrun.
Defined.

(** ** File names *)

Section FileNames.
Import Spec.

Lemma split_nonempty (sep : ascii) (s : string) : JS.split sep s <> [].
Proof.
  destruct s as [|c s]; cbn; [discriminate|].
  destruct (Ascii.eqb c sep); [discriminate|].
  destruct (JS.split sep s); discriminate.
Qed.

Lemma split_pieces_clean (sep : ascii) (s : string) :
  Forall (fun piece => occurs sep piece = false) (JS.split sep s).
Proof.
  induction s as [|c s IH]; cbn; [now repeat constructor|].
  destruct (Ascii.eqb c sep) eqn:Hc; [now constructor|].
  destruct (JS.split sep s) as [|piece pieces]; [now repeat constructor; cbn; rewrite Hc|].
  inversion IH as [|? ? Hp Hps]; subst. constructor; [|exact Hps].
  cbn. now rewrite Hc.
Qed.

Lemma join_split (sep : ascii) (s : string) :
  JS.join (String sep EmptyString) (JS.split sep s) = s.
Proof.
  induction s as [|c s IH]; cbn [JS.split]; [reflexivity|].
  destruct (Ascii.eqb_spec c sep) as [->|Hne].
  - pose proof (split_nonempty sep s) as Hs.
    destruct (JS.split sep s) as [|piece pieces]; [now elim Hs|].
    change (JS.join (String sep EmptyString) (EmptyString :: piece :: pieces))
      with (String sep (JS.join (String sep EmptyString) (piece :: pieces))).
    now rewrite IH.
  - pose proof (split_nonempty sep s) as Hs.
    destruct (JS.split sep s) as [|piece pieces]; [now elim Hs|].
    rewrite <- IH. destruct pieces; reflexivity.
Qed.

(** X20. The name announced for a file is the last piece of its path: the
    path is a directory part, empty or ending in a slash, followed by the
    name, and the name holds no slash. *)
Theorem fileNameOf_last_piece (file : FileNavigator.Uri) :
  occurs "/" (FileNavigator.fileNameOf file) = false
  /\ exists dir,
      FileNavigator.path file = (dir ++ FileNavigator.fileNameOf file)%string
      /\ (dir = EmptyString \/ exists d, dir = (d ++ "/")%string).
Proof.
  unfold FileNavigator.fileNameOf.
  set (pieces := JS.split "/" (FileNavigator.path file)).
  assert (Hne : pieces <> []) by apply split_nonempty.
  assert (Hclean : Forall (fun piece => occurs "/" piece = false) pieces)
    by apply split_pieces_clean.
  assert (Hjoin : JS.join "/" pieces = FileNavigator.path file)
    by apply join_split.
  rewrite (app_removelast_last EmptyString Hne) in Hjoin, Hclean.
  apply Forall_app in Hclean as [_ Hlast]. inversion Hlast as [|? ? Hl _]; subst.
  split; [exact Hl|].
  destruct (removelast pieces) as [|p ps] eqn:Hinit.
  - exists EmptyString. split; [now rewrite <- Hjoin | now left].
  - rewrite join_snoc in Hjoin by discriminate.
    exists (JS.join "/" (p :: ps) ++ "/")%string. split.
    + now rewrite string_append_assoc, <- Hjoin.
    + right. now eexists.
Qed.
End FileNames.

(** ** Reaching the end *)

Section ReachingTheEnd.
Import NavigationHandler Spec.

Lemma filter_shrinks (A : Type) (f g : A -> bool) (l : list A) (t : A) :
  (forall x, f x = true -> g x = true) ->
  In t l -> f t = false -> g t = true ->
  List.length (filter f l) < List.length (filter g l).
Proof.
  intros Hfg. 
  assert (Hle : forall l', List.length (filter f l') <= List.length (filter g l')).
  { induction l' as [|x l' IH]; cbn; [lia|].
    destruct (f x) eqn:Hf; [rewrite (Hfg x Hf); cbn; lia|].
    destruct (g x); cbn; lia. }
  induction l as [|x l IH]; intros Hin Hft Hgt; [elim Hin|].
  cbn. destruct Hin as [->|Hin].
  - rewrite Hft, Hgt. cbn. specialize (Hle l). lia.
  - specialize (IH Hin Hft Hgt).
    destruct (f x) eqn:Hf; [rewrite (Hfg x Hf); cbn; lia|].
    destruct (g x); cbn; lia.
Qed.

Lemma filter_none (A : Type) (f : A -> bool) (l : list A) :
  (forall x, In x l -> f x = false) -> filter f l = [].
Proof.
  induction l as [|x l IH]; intros H; [reflexivity|]. cbn.
  rewrite (H x (or_introl eq_refl)). apply IH. intros y Hy. apply H. now right.
Qed.

Lemma pickTarget_ahead (direction : string) (targets : list JumpTarget)
      (current : Position) :
  match pickTarget direction targets current with
  | Some t => In t targets /\ ahead direction current t = true
  | None => remaining direction current targets = 0
  end.
Proof.
  unfold pickTarget, remaining, ahead.
  destruct (String.eqb direction "next").
  - destruct (find _ targets) as [t|] eqn:Hf; [now apply find_some in Hf|].
    now rewrite (filter_none _ _ (find_none _ _ Hf)).
  - destruct (find _ (rev targets)) as [t|] eqn:Hf.
    + apply find_some in Hf as [Hin Ht]. split; [now apply in_rev | exact Ht].
    + rewrite filter_none; [reflexivity|].
      intros x Hx. apply (find_none _ _ Hf). now apply in_rev in Hx.
Qed.

Lemma remaining_decreases (direction : string) (targets : list JumpTarget)
      (current : Position) (t : JumpTarget) :
  In t targets -> ahead direction current t = true ->
  remaining direction (position t) targets < remaining direction current targets.
Proof.
  intros Hin Ht. unfold remaining. apply filter_shrinks with t; try assumption.
  - intros x. unfold ahead in *. destruct (String.eqb direction "next").
    + rewrite !isAfter_posLt in *. intros Hx.
      unfold posLt in *. lia.
    + rewrite !isBefore_posLt in *. intros Hx.
      unfold posLt in *. lia.
  - unfold ahead. destruct (String.eqb direction "next").
    + destruct (isAfter (position t) (position t)) eqn:E; [|reflexivity].
      apply isAfter_posLt in E. unfold posLt in E. lia.
    + destruct (isBefore (position t) (position t)) eqn:E; [|reflexivity].
      apply isBefore_posLt in E. unfold posLt in E. lia.
Qed.

(** X21. Repeating one navigation command comes to an end: once it has been
    given as many times as there were targets beyond the cursor in its
    direction, every further command leaves the cursor where it is and only
    reports that there is no next (or previous) symbol. Each jump leaves
    fewer targets ahead. *)
Theorem navigation_reaches_end (direction : string) (k : nat) :
  forall (host : Host) (editor : TextEditor),
    activeTextEditor host = Some editor ->
    getJumpTargets (document editor) <> [] ->
    remaining direction (active editor) (getJumpTargets (document editor)) <= k ->
    moveCursorToSymbol direction (navigate (repeat direction k) host)
    = told (navigate (repeat direction k) host)
        ("No " ++ directionWord direction ++ " symbol.").
Proof.
  induction k as [|k IH]; intros host editor Hed Hne Hrem.
  - cbn [repeat navigate fold_left]. unfold navigate. cbn [fold_left].
    rewrite (moveCursorToSymbol_pick direction host Hed Hne).
    pose proof (pickTarget_ahead direction (getJumpTargets (document editor))
                  (active editor)) as Hp.
    destruct (pickTarget direction _ _) as [t|]; [|reflexivity].
    destruct Hp as [Hin Ht].
    pose proof (remaining_decreases direction _ _ _ Hin Ht). lia.
  - change (navigate (repeat direction (S k)) host)
      with (navigate (repeat direction k) (moveCursorToSymbol direction host)).
    rewrite (moveCursorToSymbol_pick direction host Hed Hne).
    pose proof (pickTarget_ahead direction (getJumpTargets (document editor))
                  (active editor)) as Hp.
    destruct (pickTarget direction _ _) as [t|].
    + destruct Hp as [Hin Ht].
      apply (IH (jumped (directionWord direction) host editor t)
                {| document := document editor; active := position t |});
        [reflexivity | exact Hne|].
      pose proof (remaining_decreases direction _ _ _ Hin Ht).
      cbn [document active]. lia.
    + apply (IH (told host ("No " ++ directionWord direction ++ " symbol.")) editor);
        [exact Hed | exact Hne | lia].
Qed.

Lemma navigation_reaches_end_witness :
  let host := {| activeTextEditor := Some (Scenario.editorAt 0 0);
                 lastTimeout := None; calls := [] |} in
  moveCursorToSymbol "next" (navigate (repeat "next"%string 1) host)
  = told (navigate (repeat "next"%string 1) host)
      ("No " ++ directionWord "next" ++ " symbol.").
Proof.
  cbv zeta.
  apply (@navigation_reaches_end "next" 1
           {| activeTextEditor := Some (Scenario.editorAt 0 0);
              lastTimeout := None; calls := [] |}
           (Scenario.editorAt 0 0)).
  - reflexivity.
  - vm_compute. discriminate.
  - vm_compute. lia.
Defined.
End ReachingTheEnd.
